(** * NYOTA personality report: scoring engine of [nyota_personality.py]

    A shallow embedding of the scoring pipeline
    (raw answers -> [parse_responses] -> [compute_axis_score] x 8 ->
    score map -> [plot_kiviat]) and the properties stated about it.

    Python values are modelled as follows:
    - [int] is [Z] (unbounded);
    - [float] is IEEE-754 binary64, modelled at the level of values: a
      finite float is the rational it denotes, and every operation is the
      exact rational operation followed by round-to-nearest-even onto
      binary64 ([Binary64.round_b64]);
    - [Dict[int, int]] and [Dict[str, ...]] used as maps are [gmap]s;
      [AXES_CONFIG] and the score map, whose insertion order is
      observable, are association lists;
    - a raised exception is the [inl] of a sum ([exn + A]). *)

From Stdlib Require Import ZArith QArith Qround Qabs Qpower Lia Lqa SpecFloat.
From stdpp Require Import gmap strings list fin_maps.

Local Open Scope Z_scope.

(** ** Binary64 arithmetic, value level *)

Module Binary64.

(** A Python [float].  The sign of zero is not tracked ([0.0 == -0.0] in
    Python). *)
Inductive float : Type :=
| Finite (q : Q)
| PosInf
| NegInf
| NaN.

Definition prec : Z := 53.
Definition emax : Z := 1024.
Definition emin : Z := 3 - emax - prec.

(** [floor (log2 x)] for a positive rational [x]. *)
Definition Qlog2_floor (x : Q) : Z :=
  let k := Z.log2 (Qnum x) - Z.log2 (Zpos (Qden x)) in
  if Qle_bool (2 ^ k) x then k else k - 1.

(** Exponent of the unit in the last place of the binade of [x]. *)
Definition ulp_exp (x : Q) : Z :=
  Z.max (Qlog2_floor (Qabs x) + 1 - prec) emin.

(** Nearest integer, ties to the even one. *)
Definition rnd_half_even (x : Q) : Z :=
  let f := Qfloor x in
  match (x - inject_Z f ?= 1 # 2)%Q with
  | Lt => f
  | Gt => f + 1
  | Eq => if Z.even f then f else f + 1
  end.

(** Round-to-nearest-even of an exact rational onto binary64; a result
    of magnitude [2^emax] or more overflows to an infinity. *)
Definition round_b64 (x : Q) : float :=
  if Qeq_bool x 0 then Finite 0
  else
    let e := ulp_exp x in
    let n := rnd_half_even (x / 2 ^ e) in
    let y := Qred (inject_Z n * 2 ^ e) in
    if Qle_bool (2 ^ emax) y then PosInf
    else if Qle_bool y (- 2 ^ emax) then NegInf
    else Finite y.

Definition of_Z (z : Z) : float := round_b64 (inject_Z z).

(** [x - y] on floats. *)
Definition fsub (x y : float) : float :=
  match x, y with
  | NaN, _ | _, NaN => NaN
  | Finite a, Finite b => round_b64 (a - b)
  | PosInf, PosInf | NegInf, NegInf => NaN
  | PosInf, _ | _, NegInf => PosInf
  | NegInf, _ | _, PosInf => NegInf
  end.

Definition Qsign_neg (q : Q) : bool := Qle_bool q 0 && negb (Qeq_bool q 0).

(** [x * y] on floats. *)
Definition fmul (x y : float) : float :=
  match x, y with
  | NaN, _ | _, NaN => NaN
  | Finite a, Finite b => round_b64 (a * b)
  | Finite a, i | i, Finite a =>
      if Qeq_bool a 0 then NaN
      else if Qsign_neg a
           then match i with PosInf => NegInf | _ => PosInf end
           else i
  | PosInf, PosInf | NegInf, NegInf => PosInf
  | PosInf, NegInf | NegInf, PosInf => NegInf
  end.

(** [x / y] on floats, for a divisor that is not zero (Python raises
    [ZeroDivisionError] on a zero divisor; the one float division of
    the program divides by the literal [4]). *)
Definition fdiv (x y : float) : float :=
  match x, y with
  | NaN, _ | _, NaN => NaN
  | Finite a, Finite b => if Qeq_bool b 0 then NaN else round_b64 (a / b)
  | Finite _, _ => Finite 0
  | i, Finite b =>
      if Qsign_neg b
      then match i with PosInf => NegInf | _ => PosInf end
      else i
  | _, _ => NaN
  end.

(** Python's [round(x, 2)] on a float: the exact value is rounded to two
    decimals, ties to even, and the decimal is converted back to the
    nearest float; infinities and NaN round to themselves. *)
Definition round2 (x : float) : float :=
  match x with
  | Finite q => round_b64 (inject_Z (rnd_half_even (q * 100)) / 100)
  | _ => x
  end.

(** [x <= y] and [x < y] on floats (false when a NaN is involved). *)
Definition fle (x y : float) : bool :=
  match x, y with
  | NaN, _ | _, NaN => false
  | NegInf, _ | _, PosInf => true
  | Finite a, Finite b => Qle_bool a b
  | _, _ => false
  end.

Definition feqb (x y : float) : bool :=
  match x, y with
  | Finite a, Finite b => Qeq_bool a b
  | PosInf, PosInf | NegInf, NegInf => true
  | _, _ => false
  end.

Definition flt (x y : float) : bool := fle x y && negb (feqb x y).

End Binary64.

Import Binary64.

(** ** Exceptions and the error monad *)

(** The exceptions the modelled code can raise.  [ValueError_item]
    stands for [ValueError(f"... [{axis_name}] Item manquant :
    {bloc_name} Q{item_num}")] and carries the three interpolated values;
    [ValueError_axes] for the [ValueError] of [plot_kiviat], which
    interpolates [len(scores)]. *)
Inductive exn : Type :=
| ValueError_item (axis_name bloc_name : string) (item_num : Z)
| ValueError_axes (found : nat)
| KeyError (key : string)
| ZeroDivisionError
| OverflowError.

Definition result (A : Type) : Type := exn + A.

Definition raise {A : Type} (e : exn) : result A := inl e.

#[export] Instance result_ret : MRet result := fun _ x => inr x.
#[export] Instance result_bind : MBind result := fun _ _ f m =>
  match m with
  | inl e => inl e
  | inr x => f x
  end.

(** ** Python built-ins used by the program *)

(** [range(a, b)] *)
Definition range (a b : Z) : list Z := seqZ a (b - a).

(** [sum(values)] on a list of ints *)
Definition py_sum (values : list Z) : Z := foldl Z.add 0 values.

(** [a / b] on two ints: the correctly rounded quotient;
    [ZeroDivisionError] on a zero divisor, [OverflowError] when the
    quotient is too large for a float. *)
Definition int_truediv (a b : Z) : result float :=
  if bool_decide (b = 0) then raise ZeroDivisionError
  else
    match round_b64 (inject_Z a / inject_Z b) with
    | Finite q => mret (Finite q)
    | _ => raise OverflowError
    end.

(** [d[key]] on a dict with string keys *)
Definition getitem {V : Type} (d : gmap string V) (key : string) : result V :=
  match d !! key with
  | Some v => mret v
  | None => raise (KeyError key)
  end.

(** [d[key] = v] on an insertion-ordered dict, kept as an association
    list: an existing key keeps its position. *)
Fixpoint dict_set {V : Type} (d : list (string * V)) (key : string) (v : V)
  : list (string * V) :=
  match d with
  | [] => [(key, v)]
  | (k, w) :: rest =>
      if bool_decide (k = key) then (k, v) :: rest
      else (k, w) :: dict_set rest key v
  end.

(** ** Configuration of the eight axes *)

(** One entry of [AXES_CONFIG]: the lists of items under the block keys
    that are present, and the list under ["invert"]. *)
Record AxisConfig : Type := {
  blocs : gmap string (list Z);
  invert : list (string * Z)
}.

Definition AXES_CONFIG : list (string * AxisConfig) := [
  ("Ouverture & Curiosité",
     {| blocs := {[ "bloc1" := range 1 7;
                    "bloc2" := [14];
                    "bloc3" := [3; 6] ]};
        invert := [] |});
  ("Discipline & Fiabilité",
     {| blocs := {[ "bloc1" := range 7 13;
                    "bloc3" := [7; 11; 12] ]};
        invert := [] |});
  ("Influence & Présence",
     {| blocs := {[ "bloc1" := range 13 19;
                    "bloc2" := [15] ]};
        invert := [] |});
  ("Coopération",
     {| blocs := {[ "bloc1" := range 19 25;
                    "bloc2" := [16] ]};
        invert := [] |});
  ("Résilience & Stress",
     {| blocs := {[ "bloc1" := range 25 31;
                    "bloc2" := range 1 9 ]};
        invert := (fun q => ("bloc2", q)) <$> range 1 9 |});
  ("Drive & Motivation",
     {| blocs := {[ "bloc2" := [9; 10; 11; 12; 13; 15; 16] ]};
        invert := [] |});
  ("Style d'action",
     {| blocs := {[ "bloc3" := range 1 13 ]};
        invert := [] |});
  ("Alignement stratégique",
     {| blocs := {[ "bloc4" := range 1 15 ]};
        invert := [] |})
].

(** ** Utility functions *)

Definition invert_score (value : Z) : Z := 6 - value.

Definition normalize_to_100 (score : float) : float :=
  round2 (fmul (fdiv (fsub score (of_Z 1)) (of_Z 4)) (of_Z 100)).

(** ** Flat answers to per-block answers *)

(** One [for i in range(lo, hi)] loop of [parse_responses]: when [i] is
    a key of [json_data], [responses[bloc_name][i - offset] = json_data[i]]. *)
Definition parse_bloc (json_data : gmap Z Z) (bloc_name : string)
    (lo hi offset : Z) (responses : gmap string (gmap Z Z))
  : gmap string (gmap Z Z) :=
  foldl (fun responses i =>
           match json_data !! i with
           | Some v => alter (insert (i - offset) v) bloc_name responses
           | None => responses
           end)
        responses (range lo hi).

(** The same loop seen from the block it fills. *)
Definition fill (json_data : gmap Z Z) (offset : Z) (items : list Z)
    (bloc : gmap Z Z) : gmap Z Z :=
  foldl (fun bloc i =>
           match json_data !! i with
           | Some v => <[i - offset := v]> bloc
           | None => bloc
           end) bloc items.

Definition parse_responses (json_data : gmap Z Z) : gmap string (gmap Z Z) :=
  let responses : gmap string (gmap Z Z) :=
    {[ "bloc1" := ∅; "bloc2" := ∅; "bloc3" := ∅; "bloc4" := ∅ ]} in
  let responses := parse_bloc json_data "bloc1" 1 31 0 responses in
  let responses := parse_bloc json_data "bloc2" 31 47 30 responses in
  let responses := parse_bloc json_data "bloc3" 47 59 46 responses in
  let responses := parse_bloc json_data "bloc4" 59 73 58 responses in
  responses.

(** ** Scores *)

Definition bloc_names : list string := ["bloc1"; "bloc2"; "bloc3"; "bloc4"].

(** The inner loop [for item_num in config[bloc_name]], started with
    the values collected so far. *)
Fixpoint collect_items (axis_name : string) (config : AxisConfig)
    (responses : gmap string (gmap Z Z)) (bloc_name : string)
    (items : list Z) (values : list Z) : result (list Z) :=
  match items with
  | [] => mret values
  | item_num :: items =>
      bloc ← getitem responses bloc_name;
      match bloc !! item_num with
      | None => raise (ValueError_item axis_name bloc_name item_num)
      | Some value =>
          let value :=
            if bool_decide ((bloc_name, item_num) ∈ invert config)
            then invert_score value else value in
          collect_items axis_name config responses bloc_name items
                        (values ++ [value])
      end
  end.

(** The outer loop [for bloc_name in ["bloc1", ..., "bloc4"]]. *)
Fixpoint collect_blocs (axis_name : string) (config : AxisConfig)
    (responses : gmap string (gmap Z Z)) (names : list string)
    (values : list Z) : result (list Z) :=
  match names with
  | [] => mret values
  | bloc_name :: names =>
      match blocs config !! bloc_name with
      | None => collect_blocs axis_name config responses names values
      | Some items =>
          values ← collect_items axis_name config responses bloc_name
                                 items values;
          collect_blocs axis_name config responses names values
      end
  end.

Definition compute_axis_score (axis_name : string) (config : AxisConfig)
    (responses : gmap string (gmap Z Z)) : result float :=
  values ← collect_blocs axis_name config responses bloc_names [];
  match values with
  | [] => mret (Finite 0)
  | _ =>
      mean_score ← int_truediv (py_sum values) (Z.of_nat (length values));
      mret (normalize_to_100 mean_score)
  end.

(** The loop [for axis_name, config in AXES_CONFIG.items()]. *)
Fixpoint score_axes (axes : list (string * AxisConfig))
    (responses : gmap string (gmap Z Z)) (scores : list (string * float))
  : result (list (string * float)) :=
  match axes with
  | [] => mret scores
  | (axis_name, config) :: axes =>
      score ← compute_axis_score axis_name config responses;
      score_axes axes responses (dict_set scores axis_name score)
  end.

Definition compute_all_scores (json_responses : gmap Z Z)
  : result (list (string * float)) :=
  let responses := parse_responses json_responses in
  score_axes AXES_CONFIG responses [].

(** ** Radar chart *)

(** The calls [plot_kiviat] makes into numpy, matplotlib and [print], in
    program order.  The calls are recorded with the arguments the program
    computes itself; what the libraries do with them is not modelled. *)
Inductive call : Type :=
| np_linspace (num : nat)
| plt_subplots
| ax_set_theta_offset
| ax_set_theta_direction (d : Z)
| ax_set_xticks (n : nat)
| ax_set_xticklabels (labels : list string)
| ax_set_ylim (lo hi : Z)
| ax_set_yticks (ticks : list Z)
| ax_set_yticklabels (labels : list string)
| ax_plot (n_angles : nat) (values : list float)
| ax_fill (n_angles : nat) (values : list float)
| ax_grid
| ax_set_title (title : string)
| plt_tight_layout
| plt_savefig (path : string)
| print (line : string)
| plt_show.

(** [plot_kiviat(scores, save_path)]: the calls made, and how the
    function ends. *)
Definition plot_kiviat (scores : list (string * float))
    (save_path : option string) : list call * result () :=
  if bool_decide (length scores ≠ 8%nat)
  then ([], raise (ValueError_axes (length scores)))
  else
    let labels := scores.*1 in
    let values := scores.*2 in
    let num_axes := length labels in
    let values := values ++ take 1 values in
    let n_angles := (num_axes + length (take 1 (seq 0 num_axes)))%nat in
    ([ np_linspace num_axes;
       plt_subplots;
       ax_set_theta_offset;
       ax_set_theta_direction (-1);
       ax_set_xticks (n_angles - 1);
       ax_set_xticklabels labels;
       ax_set_ylim 0 100;
       ax_set_yticks [20; 40; 60; 80; 100];
       ax_set_yticklabels ["20"; "40"; "60"; "80"; "100"];
       ax_plot n_angles values;
       ax_fill n_angles values;
       ax_grid;
       ax_set_title "NYOTA Personality – Profil à 8 dimensions";
       plt_tight_layout ]
     ++ match save_path with
        | Some path =>
            if bool_decide (path = "") then []
            else [ plt_savefig path;
                   print ("✅ Diagramme sauvegardé : " +:+ path) ]
        | None => []
        end
     ++ [ plt_show ],
     mret ()).

(** ** Test inputs *)

(** The answer map that gives the rating [v] to every item 1..72. *)
Definition all_items (v : Z) : gmap Z Z :=
  list_to_map ((fun i => (i, v)) <$> range 1 73).

(** [scores[axis_name]] on a score map *)
Definition score_of (scores : list (string * float)) (axis_name : string)
  : option float :=
  (fun r => r.2.2) <$> list_find (fun p => p.1 = axis_name) scores.

(** The four loops of [parse_responses]: block, bounds of the [range],
    offset subtracted from the global item number. *)
Definition bloc_ranges : list (string * Z * Z * Z) :=
  [ ("bloc1", 1, 31, 0); ("bloc2", 31, 47, 30);
    ("bloc3", 47, 59, 46); ("bloc4", 59, 73, 58) ].

(** ** The Standard Library's IEEE-754 operations, for comparison *)

(** The value of a [spec_float]. *)
Definition of_SF (s : spec_float) : float :=
  match s with
  | S754_zero _ => Finite 0
  | S754_infinity false => PosInf
  | S754_infinity true => NegInf
  | S754_nan => NaN
  | S754_finite sign m e =>
      Finite (Qred ((if sign then -1 else 1) * inject_Z (Zpos m) * 2 ^ e))
  end.

Definition SF_of_Z (z : Z) : spec_float := binary_normalize prec emax z 0 false.

(** The arithmetic of [compute_axis_score] on a sum [s] of [n] values,
    before the final [round], with the operations of [SpecFloat]. *)
Definition SF_scale (s n : Z) : spec_float :=
  SFmul prec emax
    (SFdiv prec emax
       (SFsub prec emax (SFdiv prec emax (SF_of_Z s) (SF_of_Z n)) (SF_of_Z 1))
       (SF_of_Z 4))
    (SF_of_Z 100).

(** The same arithmetic with the operations of [Binary64]. *)
Definition scale (s n : Z) : result float :=
  mean_score ← int_truediv s n;
  mret (fmul (fdiv (fsub mean_score (of_Z 1)) (of_Z 4)) (of_Z 100)).

(** ** Rounding, in two steps *)

(** Rounding to nearest even with an unbounded exponent range, and the
    overflow test of [round_b64]. *)
Definition round_exact (x : Q) : Q :=
  (inject_Z (rnd_half_even (x / 2 ^ ulp_exp x)) * 2 ^ ulp_exp x)%Q.

Definition overflow (y : Q) : float :=
  if Qle_bool (2 ^ emax) y then PosInf
  else if Qle_bool y (- 2 ^ emax) then NegInf
  else Finite y.

(** ** What an axis reads *)

(** The (block, item) pairs [compute_axis_score] looks up for an axis, in
    the order of its two loops. *)
Definition configured_items (config : AxisConfig) : list (string * Z) :=
  bloc_name ← bloc_names;
  match blocs config !! bloc_name with
  | Some items => (fun item_num => (bloc_name, item_num)) <$> items
  | None => []
  end.

(** [responses[bloc_name][item_num]] when both keys are present. *)
Definition answer (responses : gmap string (gmap Z Z)) (p : string * Z)
  : option Z :=
  responses !! p.1 ≫= (.!! p.2).

(** The value an axis collects for an answered item: the answer,
    inverted when the pair is in the ["invert"] list. *)
Definition effective_value (config : AxisConfig) (p : string * Z)
    (value : Z) : Z :=
  if bool_decide (p ∈ invert config) then invert_score value else value.

(** The list of values of an axis when every item is answered. *)
Definition axis_values (config : AxisConfig)
    (responses : gmap string (gmap Z Z)) : option (list Z) :=
  mapM (fun p => effective_value config p <$> answer responses p)
       (configured_items config).

(** The global item number that [parse_responses] stores under a block
    and local item number, when there is one. *)
Definition global_item (p : string * Z) : option Z :=
  r ← list_find (fun r : string * Z * Z * Z => r.1.1.1 = p.1) bloc_ranges;
  let '(_, lo, hi, offset) := r.2 in
  if bool_decide (lo ≤ p.2 + offset < hi) then Some (p.2 + offset) else None.

(** * Properties *)

(** Membership in a list given in full. *)
Ltac elem_of_literal :=
  unfold bloc_ranges, bloc_names;
  repeat first [ apply list_elem_of_here | apply list_elem_of_further ].

(** ** Rounding onto binary64 *)

Section rounding.
Local Open Scope Q_scope.

Lemma rnd_half_even_nonneg (x : Q) : 0 <= x → (0 ≤ rnd_half_even x)%Z.
Proof.
  intros Hx. unfold rnd_half_even.
  assert (0 ≤ Qfloor x)%Z as Hf
    by (rewrite <- (Qfloor_Z 0); by apply Qfloor_resp_le).
  destruct (Qcompare _ _); [destruct (Z.even _)| |]; lia.
Qed.

Lemma rnd_half_even_le (x : Q) (M : Z) :
  x <= inject_Z M → (rnd_half_even x ≤ M)%Z.
Proof.
  intros Hx. unfold rnd_half_even.
  pose proof (Qfloor_le x) as Hf.
  assert (inject_Z (Qfloor x) < inject_Z M → (Qfloor x + 1 ≤ M)%Z) as Hlt
    by (rewrite <- Zlt_Qlt; lia).
  assert (Qfloor x ≤ M)%Z as Hle
    by (rewrite <- (Qfloor_Z M); by apply Qfloor_resp_le).
  destruct (Qcompare_spec (x - inject_Z (Qfloor x)) (1 # 2)) as [He|Hl|Hg].
  - destruct (Z.even _); [done|]. apply Hlt. lra.
  - done.
  - apply Hlt. lra.
Qed.

(** The exponent of the last place is at most 0 below [2^53]. *)
Lemma ulp_exp_small (x : Q) (N : Z) :
  0 < x → x <= inject_Z N → (N < 2 ^ 53)%Z → (ulp_exp x ≤ 0)%Z.
Proof.
  intros Hpos Hle HN. unfold ulp_exp, emin, emax, prec.
  destruct x as [n d]. unfold Qlt in Hpos. unfold Qle in Hle. cbn in Hpos, Hle.
  assert (0 < n)%Z as Hn by lia.
  replace (Qabs (n # d)) with (n # d)
    by (unfold Qabs; by rewrite Z.abs_eq by lia).
  unfold Qlog2_floor. cbn [Qnum Qden].
  set (k := (Z.log2 n - Z.log2 (Z.pos d))%Z).
  assert (k ≤ 53)%Z as Hk.
  { assert (n ≤ Z.pos d * 2 ^ 53)%Z as Hnd by nia.
    apply Z.log2_le_mono in Hnd.
    rewrite Z.log2_mul_pow2 in Hnd by lia. lia. }
  destruct (Qle_bool (2 ^ k) (n # d)) eqn:Htest; [|lia].
  destruct (decide (k = 53%Z)) as [Hk53|]; [|lia].
  rewrite Hk53 in Htest.
  apply Qle_bool_imp_le in Htest. exfalso.
  assert (inject_Z (2 ^ 53) <= n # d) as H53 by exact Htest.
  unfold Qle in H53. cbn [Qnum Qden inject_Z] in H53. nia.
Qed.

(** Rounding stays between 0 and an integer below [2^53]. *)
Lemma round_b64_range (x : Q) (N : Z) :
  0 <= x → x <= inject_Z N → (N < 2 ^ 53)%Z →
  ∃ y, round_b64 x = Finite y ∧ 0 <= y ∧ y <= inject_Z N.
Proof.
  intros Hx HxN HN. unfold round_b64.
  destruct (Qeq_bool x 0) eqn:H0.
  { exists 0. split; [done|]. split; lra. }
  apply Qeq_bool_neq in H0.
  assert (0 < x) as Hpos.
  { apply Qle_lteq in Hx as [Hx|Hx]; [done|]. by symmetry in Hx. }
  pose proof (ulp_exp_small x N Hpos HxN HN) as He.
  set (e := ulp_exp x) in *. set (p := 2 ^ e).
  assert (0 < p) as Hp by (apply Qpower_0_lt; reflexivity).
  assert (inject_Z (N * 2 ^ (- e)) == inject_Z N / p) as HNp.
  { rewrite inject_Z_mult, Zpower_Qpower by lia.
    change (inject_Z 2) with 2. rewrite Qpower_opp. reflexivity. }
  set (n := rnd_half_even (x / p)).
  assert (0 ≤ n)%Z as Hn0.
  { apply rnd_half_even_nonneg. apply Qle_shift_div_l; [done|lra]. }
  assert (n ≤ N * 2 ^ (- e))%Z as HnN.
  { apply rnd_half_even_le. rewrite HNp.
    apply Qle_shift_div_l; [done|].
    unfold Qdiv. rewrite <- Qmult_assoc, (Qmult_comm (/ p)), Qmult_inv_r; lra. }
  set (y := Qred (inject_Z n * p)).
  assert (y == inject_Z n * p) as Hy by apply Qred_correct.
  assert (0 <= y) as Hy0.
  { rewrite Hy. apply Qmult_le_0_compat; [|lra].
    change 0 with (inject_Z 0). by rewrite <- Zle_Qle. }
  assert (y <= inject_Z N) as HyN.
  { rewrite Hy. rewrite Zle_Qle, HNp in HnN.
    apply (Qmult_le_compat_r _ _ p) in HnN; [|lra].
    unfold Qdiv in HnN.
    rewrite <- Qmult_assoc, (Qmult_comm (/ p)), Qmult_inv_r in HnN; lra. }
  assert (inject_Z N < 2 ^ emax) as Hmax.
  { apply Qlt_le_trans with (inject_Z (2 ^ 53)); [by rewrite <- Zlt_Qlt|].
    by vm_compute. }
  exists y.
  destruct (Qle_bool (2 ^ emax) y) eqn:T1.
  { apply Qle_bool_imp_le in T1. lra. }
  destruct (Qle_bool y (- 2 ^ emax)) eqn:T2.
  { apply Qle_bool_imp_le in T2.
    assert (0 < 2 ^ emax) by (apply Qpower_0_lt; reflexivity). lra. }
  done.
Qed.

(** *** [round_b64] rounds to a nearest float *)

Lemma rnd_half_even_error (x : Q) :
  Qabs (inject_Z (rnd_half_even x) - x) <= 1 # 2.
Proof.
  unfold rnd_half_even.
  pose proof (Qfloor_le x) as Hf. pose proof (Qlt_floor x) as Hc.
  rewrite inject_Z_plus in Hc. change (inject_Z 1) with 1 in Hc.
  apply Qabs_Qle_condition.
  destruct (Qcompare_spec (x - inject_Z (Qfloor x)) (1 # 2)) as [He|Hl|Hg];
    [destruct (Z.even _)| |];
    rewrite ?inject_Z_plus; change (inject_Z 1) with 1; lra.
Qed.

Lemma Qlog2_floor_spec (x : Q) :
  0 < x → 2 ^ Qlog2_floor x <= x ∧ x < 2 ^ (Qlog2_floor x + 1).
Proof.
  intros Hpos. destruct x as [n d].
  assert (0 < n)%Z as Hn by (unfold Qlt in Hpos; cbn in Hpos; lia).
  unfold Qlog2_floor. cbn [Qnum Qden].
  set (a := Z.log2 n). set (b := Z.log2 (Z.pos d)).
  destruct (Z.log2_spec n Hn) as [Ha1 Ha2]. fold a in Ha1, Ha2.
  destruct (Z.log2_spec (Z.pos d) eq_refl) as [Hb1 Hb2]. fold b in Hb1, Hb2.
  assert (0 ≤ a)%Z as Ha0 by apply Z.log2_nonneg.
  assert (0 ≤ b)%Z as Hb0 by apply Z.log2_nonneg.
  assert (Hpow : ∀ u v : Z, (0 ≤ u)%Z → (0 ≤ v)%Z →
            2 ^ (u - v) == inject_Z (2 ^ u) / inject_Z (2 ^ v)).
  { intros u v Hu Hv. rewrite Qpower_minus by done.
    rewrite !Zpower_Qpower by done. reflexivity. }
  assert (Hx : n # d == inject_Z n / inject_Z (Z.pos d)) by apply Qmake_Qdiv.
  assert (0 < inject_Z (Z.pos d)) as Hd by (by rewrite <- (Zlt_Qlt 0)).
  assert (Hpos2 : ∀ u : Z, 0 < inject_Z (2 ^ u)%Z ∨ (u < 0)%Z).
  { intros u. destruct (Z_lt_le_dec u 0); [by right|left].
    rewrite <- (Zlt_Qlt 0). by apply Z.pow_pos_nonneg. }
  assert (Hlow : 2 ^ (a - b - 1) <= n # d).
  { replace (a - b - 1)%Z with (a - (b + 1))%Z by lia.
    rewrite Hpow, Hx by lia.
    destruct (Hpos2 (b + 1)%Z) as [Hp|]; [|lia].
    apply Qle_shift_div_r; [done|].
    unfold Qdiv. rewrite <- Qmult_assoc, (Qmult_comm (/ _)).
    rewrite Qmult_assoc. apply Qle_shift_div_l; [done|].
    rewrite <- !inject_Z_mult, <- Zle_Qle. nia. }
  assert (Hup : n # d < 2 ^ (a - b + 1)).
  { replace (a - b + 1)%Z with (a + 1 - b)%Z by lia.
    rewrite Hpow, Hx by lia.
    destruct (Hpos2 b) as [Hp|]; [|lia].
    apply Qlt_shift_div_l; [done|].
    unfold Qdiv. rewrite <- Qmult_assoc, (Qmult_comm (/ _)).
    rewrite Qmult_assoc. apply Qlt_shift_div_r; [done|].
    rewrite <- !inject_Z_mult, <- Zlt_Qlt. nia. }
  destruct (Qle_bool (2 ^ (a - b)) (n # d)) eqn:Htest.
  - apply Qle_bool_imp_le in Htest. done.
  - split; [done|]. replace (a - b - 1 + 1)%Z with (a - b)%Z by lia.
    apply Qnot_le_lt. intros Hle. apply Qle_bool_iff in Hle. congruence.
Qed.

Lemma rnd_half_even_ge (x : Q) (M : Z) :
  inject_Z M <= x → (M ≤ rnd_half_even x)%Z.
Proof.
  intros Hx. unfold rnd_half_even.
  assert (M ≤ Qfloor x)%Z as Hle
    by (rewrite <- (Qfloor_Z M); by apply Qfloor_resp_le).
  destruct (Qcompare _ _); [destruct (Z.even _)| |]; lia.
Qed.

(** A finite result of [round_b64] is an integer of at most 53 bits times
    the unit in the last place of the argument, and lies within half that
    unit of the argument. *)
Lemma round_b64_nearest (x y : Q) :
  ¬ x == 0 → round_b64 x = Finite y →
  ∃ n : Z,
    y == inject_Z n * 2 ^ ulp_exp x ∧ (Z.abs n ≤ 2 ^ 53)%Z ∧
    (emin ≤ ulp_exp x)%Z ∧
    Qabs (y - x) <= 2 ^ ulp_exp x / 2.
Proof.
  intros H0 Hy. unfold round_b64 in Hy.
  destruct (Qeq_bool x 0) eqn:T0; [by apply Qeq_bool_eq in T0|].
  set (e := ulp_exp x) in *. set (p := 2 ^ e) in *.
  set (n := rnd_half_even (x / p)) in *.
  assert (0 < p) as Hp by (apply Qpower_0_lt; reflexivity).
  destruct (Qle_bool _ _); [done|]. destruct (Qle_bool _ _); [done|].
  injection Hy as <-. exists n.
  assert (x == x / p * p) as Hxp by (field; lra).
  pose proof (rnd_half_even_error (x / p)) as Herr. fold n in Herr.
  apply Qabs_Qle_condition in Herr.
  split; [apply Qred_correct|]. split; [|split].
  - assert (0 < Qabs x) as Habs.
    { destruct (Qlt_le_dec 0 x) as [Hx|Hx].
      - rewrite Qabs_pos; lra.
      - rewrite Qabs_neg by done.
        apply Qle_lteq in Hx as [Hx|Hx]; [lra|done]. }
    destruct (Qlog2_floor_spec (Qabs x) Habs) as [_ Hup].
    assert (Qlog2_floor (Qabs x) + 1 ≤ e + 53)%Z as Hexp
      by (unfold e, ulp_exp, prec; lia).
    apply (Qpower_le_compat_l 2) in Hexp; [|done].
    rewrite (Qpower_plus 2 e 53) in Hexp by done. fold p in Hexp.
    assert (Qabs x < p * 2 ^ 53) as Hx53 by (eapply Qlt_le_trans; eauto).
    assert (Qabs (x / p) < 2 ^ 53) as Hq.
    { unfold Qdiv. rewrite Qabs_Qmult, (Qabs_pos (/ p)).
      - apply Qlt_shift_div_r; [done|]. by rewrite Qmult_comm.
      - apply Qlt_le_weak, Qinv_lt_0_compat, Hp. }
    apply Qabs_Qlt_condition in Hq as [Hq1 Hq2].
    apply Z.abs_le. split.
    + apply rnd_half_even_ge. apply Qlt_le_weak. exact Hq1.
    + apply rnd_half_even_le. apply Qlt_le_weak. exact Hq2.
  - unfold e, ulp_exp. lia.
  - rewrite Qred_correct. apply Qabs_diff_Qle_condition.
    assert (inject_Z n * p - p / 2 == (inject_Z n - (1 # 2)) * p) as -> by field.
    assert (inject_Z n * p + p / 2 == (inject_Z n + (1 # 2)) * p) as -> by field.
    assert ((inject_Z n - (1 # 2)) * p <= x / p * p) as Hlo
      by (apply Qmult_le_compat_r; lra).
    assert (x / p * p <= (inject_Z n + (1 # 2)) * p) as Hhi
      by (apply Qmult_le_compat_r; lra).
    rewrite <- Hxp in Hlo, Hhi. done.
Qed.
End rounding.

(** On every sum [s] of [n] ratings between 1 and 5, for [n] up to 30,
    the arithmetic of [Binary64] and that of the Standard Library's
    [SpecFloat] give the same float. *)
Example scale_agrees_with_SpecFloat :
  forallb (fun n =>
             forallb (fun s =>
                        match scale s n with
                        | inr x => feqb x (of_SF (SF_scale s n))
                        | inl _ => false
                        end)
                     (range n (5 * n + 1)))
          (range 1 31)
  = true.
Proof. by vm_compute. Qed.

(** [round2] on the floats nearest to 2.675, 0.125, 0.375 and 1.005:
    2.67 (the float lies below the decimal), 0.12 and 0.38 (exact ties,
    to the even digit), 1.0. *)
Example round2_ties :
  round2 (round_b64 (2675 # 1000)) = round_b64 (267 # 100) ∧
  round2 (round_b64 (125 # 1000)) = round_b64 (12 # 100) ∧
  round2 (round_b64 (375 # 1000)) = round_b64 (38 # 100) ∧
  round2 (round_b64 (1005 # 1000)) = Finite 1.
Proof. by vm_compute. Qed.

(** ** Utility functions: properties *)

(** C6. [invert_score] is an involution on the ratings 1..5, which it maps
    1 to 5, 2 to 4, 3 to 3, 4 to 2 and 5 to 1. *)
Theorem invert_score_involution :
  (∀ v : Z, 1 ≤ v ≤ 5 → invert_score (invert_score v) = v) ∧
  invert_score 1 = 5 ∧ invert_score 2 = 4 ∧ invert_score 3 = 3 ∧
  invert_score 4 = 2 ∧ invert_score 5 = 1.
Proof.
  split; [intros v _; unfold invert_score; lia | by vm_compute].
Qed.

Lemma invert_score_involution_witness :
  1 ≤ 4 ≤ 5 ∧ invert_score (invert_score 4) = 4.
Proof.
  split; [lia | apply (proj1 invert_score_involution 4); lia].
Defined.

(** C5. [normalize_to_100] is [round(((m - 1) / 4) * 100, 2)] in float
    arithmetic; on every mean between 1 and 5 its result is between 0 and
    100; and it maps 1 to 0.0, 3 to 50.0 and 5 to 100.0. *)
Theorem normalize_to_100_range :
  (∀ m, normalize_to_100 m
        = round2 (fmul (fdiv (fsub m (of_Z 1)) (of_Z 4)) (of_Z 100))) ∧
  (∀ m, fle (Finite 1) m = true → fle m (Finite 5) = true →
        fle (Finite 0) (normalize_to_100 m) = true ∧
        fle (normalize_to_100 m) (Finite 100) = true) ∧
  normalize_to_100 (Finite 1) = Finite 0 ∧
  normalize_to_100 (Finite 3) = Finite 50 ∧
  normalize_to_100 (Finite 5) = Finite 100.
Proof.
  split; [done|]. split; [|by vm_compute].
  intros m H1 H5.
  destruct m as [q| | |]; try discriminate.
  cbn [fle] in H1, H5. apply Qle_bool_imp_le in H1, H5.
  unfold normalize_to_100.
  replace (of_Z 1) with (Finite 1) by (by vm_compute).
  replace (of_Z 4) with (Finite 4) by (by vm_compute).
  replace (of_Z 100) with (Finite 100) by (by vm_compute).
  cbn [fsub].
  destruct (round_b64_range (q - 1) 4) as (y1 & -> & Hy1 & Hy1');
    [lra|change (inject_Z 4) with 4%Q; lra|lia|].
  change (inject_Z 4) with 4%Q in Hy1'.
  change (fdiv (Finite y1) (Finite 4)) with (round_b64 (y1 / 4)).
  destruct (round_b64_range (y1 / 4) 1) as (y2 & -> & Hy2 & Hy2');
    [ apply Qle_shift_div_l; lra
    | apply Qle_shift_div_r; [reflexivity|change (inject_Z 1) with 1%Q; lra]
    | lia | ].
  change (inject_Z 1) with 1%Q in Hy2'.
  cbn [fmul].
  destruct (round_b64_range (y2 * 100) 100) as (y3 & -> & Hy3 & Hy3');
    [lra|change (inject_Z 100) with 100%Q; lra|lia|].
  change (inject_Z 100) with 100%Q in Hy3'.
  cbn [round2].
  pose proof (rnd_half_even_nonneg (y3 * 100)) as Hn0.
  pose proof (rnd_half_even_le (y3 * 100) 10000) as Hn1.
  set (n := rnd_half_even (y3 * 100)) in *.
  assert (0 ≤ n ≤ 10000) as Hn.
  { split; [apply Hn0; lra|].
    apply Hn1. change (inject_Z 10000) with 10000%Q. lra. }
  destruct Hn as [Hn0' Hn1'].
  rewrite Zle_Qle in Hn0', Hn1'.
  change (inject_Z 0) with 0%Q in Hn0'.
  change (inject_Z 10000) with 10000%Q in Hn1'.
  destruct (round_b64_range (inject_Z n / 100) 100) as (y4 & -> & Hy4 & Hy4');
    [ apply Qle_shift_div_l; [reflexivity|lra]
    | apply Qle_shift_div_r; [reflexivity|change (inject_Z 100) with 100%Q; lra]
    | lia | ].
  cbn [fle]. split; apply Qle_bool_iff; done.
Qed.

Lemma normalize_to_100_range_witness :
  fle (Finite 0) (normalize_to_100 (round_b64 (38 # 14))) = true ∧
  fle (normalize_to_100 (round_b64 (38 # 14))) (Finite 100) = true.
Proof.
  apply (proj1 (proj2 normalize_to_100_range) (round_b64 (38 # 14)));
    by vm_compute.
Defined.

(** ** The configuration table *)

(** C7. In [AXES_CONFIG], every (block, item) pair of an axis's ["invert"]
    list is an item of that axis's list for the same block. *)
Theorem AXES_CONFIG_invert_included axis_name config bloc_name q :
  (axis_name, config) ∈ AXES_CONFIG →
  (bloc_name, q) ∈ invert config →
  ∃ items, blocs config !! bloc_name = Some items ∧ q ∈ items.
Proof.
  unfold AXES_CONFIG. intros Haxis Hinv.
  repeat (apply elem_of_cons in Haxis as [[= -> ->]|Haxis]);
    try (by apply elem_of_nil in Hinv);
    [ | by apply elem_of_nil in Haxis ].
  cbn [invert] in Hinv.
  repeat (apply elem_of_cons in Hinv as [[= -> ->]|Hinv]);
    [ .. | by apply elem_of_nil in Hinv ];
    (exists (range 1 9); split; [by vm_compute|]);
    vm_compute; elem_of_literal.
Qed.

Lemma AXES_CONFIG_invert_included_witness :
  ∃ items,
    blocs {| blocs := {[ "bloc1" := range 25 31; "bloc2" := range 1 9 ]};
             invert := (fun q => ("bloc2", q)) <$> range 1 9 |} !! "bloc2"
    = Some items ∧ 8 ∈ items.
Proof.
  apply (AXES_CONFIG_invert_included "Résilience & Stress"
           {| blocs := {[ "bloc1" := range 25 31; "bloc2" := range 1 9 ]};
              invert := (fun q => ("bloc2", q)) <$> range 1 9 |}
           "bloc2" 8).
  - unfold AXES_CONFIG. do 4 apply list_elem_of_further. apply list_elem_of_here.
  - vm_compute. do 7 apply list_elem_of_further. apply list_elem_of_here.
Defined.

(** ** The parser *)

Lemma bloc_names_ranges bloc_name :
  bloc_name ∈ bloc_names →
  ∃ lo hi offset, (bloc_name, lo, hi, offset) ∈ bloc_ranges.
Proof.
  unfold bloc_names. intros Hname.
  repeat (apply elem_of_cons in Hname as [->|Hname]);
    [ | | | | by apply elem_of_nil in Hname ];
    do 3 eexists; elem_of_literal.
Qed.

Lemma bloc_ranges_bounds bloc_name lo hi offset :
  (bloc_name, lo, hi, offset) ∈ bloc_ranges →
  bloc_name ∈ bloc_names ∧ 1 ≤ lo ∧ hi ≤ 73.
Proof.
  unfold bloc_ranges. intros Hin.
  repeat (apply elem_of_cons in Hin as [[= -> -> -> ->]|Hin]);
    [ | | | | by apply elem_of_nil in Hin ];
    (split; [elem_of_literal|lia]).
Qed.

Section parse.
Context (json_data : gmap Z Z).

Lemma fill_lookup offset items bloc k :
  fill json_data offset items bloc !! k =
    if bool_decide (k + offset ∈ items)
    then from_option Some (bloc !! k) (json_data !! (k + offset))
    else bloc !! k.
Proof.
  revert bloc. induction items as [|i items IH]; intros bloc; [done|].
  change (fill json_data offset (i :: items) bloc)
    with (fill json_data offset items
            match json_data !! i with
            | Some v => <[i - offset := v]> bloc
            | None => bloc
            end).
  rewrite IH. clear IH.
  destruct (decide (k + offset = i)) as [<-|Hne].
  - rewrite (bool_decide_eq_true_2 (_ ∈ _ :: _)) by left.
    replace (k + offset - offset) with k by lia.
    destruct (json_data !! (k + offset)) as [v|] eqn:Hv; cbn.
    + rewrite lookup_insert_eq. by case_bool_decide.
    + by case_bool_decide.
  - assert (bloc' : ∀ b : gmap Z Z,
               match json_data !! i with
               | Some v => <[i - offset := v]> b
               | None => b
               end !! k = b !! k).
    { intros b. destruct (json_data !! i); [|done].
      rewrite lookup_insert_ne; [done|lia]. }
    rewrite bloc'.
    destruct (decide (k + offset ∈ items)) as [Hin|Hnin].
    + rewrite !bool_decide_eq_true_2; [done|by right|done].
    + rewrite !bool_decide_eq_false_2; [done| |done].
      by intros [?|?]%elem_of_cons.
Qed.

Lemma parse_bloc_lookup bloc_name lo hi offset responses bloc :
  responses !! bloc_name = Some bloc →
  parse_bloc json_data bloc_name lo hi offset responses !! bloc_name
  = Some (fill json_data offset (range lo hi) bloc).
Proof.
  unfold parse_bloc, fill. generalize (range lo hi) as items.
  intros items. revert responses bloc.
  induction items as [|i items IH]; intros responses bloc Hb; [done|].
  cbn [foldl]. destruct (json_data !! i) as [v|]; [|by apply IH].
  apply IH. by rewrite lookup_alter_eq, Hb.
Qed.

Lemma parse_bloc_lookup_ne bloc_name lo hi offset responses other :
  bloc_name ≠ other →
  parse_bloc json_data bloc_name lo hi offset responses !! other
  = responses !! other.
Proof.
  intros Hne. unfold parse_bloc. generalize (range lo hi) as items.
  intros items. revert responses.
  induction items as [|i items IH]; intros responses; [done|].
  cbn [foldl]. destruct (json_data !! i) as [v|]; [|by apply IH].
  rewrite IH. by rewrite lookup_alter_ne.
Qed.

(** What [parse_responses] returns: under each of the four names, the
    answers of that block's range, renumbered. *)
Lemma parse_responses_lookup bloc_name lo hi offset :
  (bloc_name, lo, hi, offset) ∈ bloc_ranges →
  parse_responses json_data !! bloc_name
  = Some (fill json_data offset (range lo hi) ∅).
Proof.
  unfold bloc_ranges, parse_responses. intros Hin.
  repeat (apply elem_of_cons in Hin as [[= -> -> -> ->]|Hin]);
    [ | | | | by apply elem_of_nil in Hin ];
    repeat first
      [ rewrite parse_bloc_lookup_ne by done
      | erewrite parse_bloc_lookup; [reflexivity|] ];
    done.
Qed.

Lemma parse_responses_is_Some bloc_name :
  is_Some (parse_responses json_data !! bloc_name) ↔ bloc_name ∈ bloc_names.
Proof.
  destruct (decide (bloc_name ∈ bloc_names)) as [Hin|Hnin]; split; try done.
  - intros _. unfold bloc_names in Hin.
    repeat (apply elem_of_cons in Hin as [->|Hin]);
      [ | | | | by apply elem_of_nil in Hin ].
    + by rewrite (parse_responses_lookup "bloc1" 1 31 0) by elem_of_literal.
    + by rewrite (parse_responses_lookup "bloc2" 31 47 30) by elem_of_literal.
    + by rewrite (parse_responses_lookup "bloc3" 47 59 46) by elem_of_literal.
    + by rewrite (parse_responses_lookup "bloc4" 59 73 58) by elem_of_literal.
  - intros HS. exfalso. apply Hnin. unfold bloc_names.
    rewrite !elem_of_cons.
    destruct (decide (bloc_name = "bloc1")) as [|N1]; [tauto|].
    destruct (decide (bloc_name = "bloc2")) as [|N2]; [tauto|].
    destruct (decide (bloc_name = "bloc3")) as [|N3]; [tauto|].
    destruct (decide (bloc_name = "bloc4")) as [|N4]; [tauto|].
    unfold parse_responses in HS.
    rewrite !parse_bloc_lookup_ne in HS by congruence.
    rewrite !lookup_insert_ne in HS by congruence.
    rewrite lookup_singleton_ne in HS by congruence. by destruct HS.
Qed.

End parse.

(** Every entry of a parsed block is the answer to one global item of
    the block's range, and conversely. *)
Lemma parse_responses_entry json_data bloc_name lo hi offset bloc k :
  (bloc_name, lo, hi, offset) ∈ bloc_ranges →
  parse_responses json_data !! bloc_name = Some bloc →
  bloc !! k = if bool_decide (lo ≤ k + offset < hi)
              then json_data !! (k + offset) else None.
Proof.
  intros Hin Hb. rewrite (parse_responses_lookup _ _ _ _ _ Hin) in Hb.
  injection Hb as <-. rewrite fill_lookup, lookup_empty. unfold range.
  destruct (decide (lo ≤ k + offset < hi)) as [Hr|Hr].
  - rewrite !bool_decide_eq_true_2; [|done|apply elem_of_seqZ; lia].
    by destruct (json_data !! (k + offset)).
  - rewrite !bool_decide_eq_false_2; [done|done|].
    rewrite elem_of_seqZ. lia.
Qed.

(** A global item of a block's range is found in that block at its
    number minus the offset. *)
Lemma parse_responses_carries json_data bloc_name lo hi offset g v :
  (bloc_name, lo, hi, offset) ∈ bloc_ranges →
  lo ≤ g < hi → json_data !! g = Some v →
  parse_responses json_data !! bloc_name ≫= (.!! (g - offset)) = Some v.
Proof.
  intros Hin Hr Hg.
  rewrite (parse_responses_lookup _ _ _ _ _ Hin). cbn.
  rewrite fill_lookup, lookup_empty.
  replace (g - offset + offset) with g by lia.
  rewrite bool_decide_eq_true_2 by (unfold range; apply elem_of_seqZ; lia).
  by rewrite Hg.
Qed.

(** C4. [parse_responses] renumbers by the offsets 0/30/46/58: a global item
    of a block's range lands in that block at its number minus the offset
    (31 at bloc2 item 1, 46 at bloc2 item 16, 72 at bloc4 item 14), every
    entry of the output comes from a global item 1..72, and a key outside
    1..72 has no effect on the output. *)
Theorem parse_responses_offsets (json_data : gmap Z Z) :
  (∀ bloc_name lo hi offset g v,
      (bloc_name, lo, hi, offset) ∈ bloc_ranges →
      lo ≤ g < hi → json_data !! g = Some v →
      parse_responses json_data !! bloc_name ≫= (.!! (g - offset)) = Some v) ∧
  (∀ v, json_data !! 31 = Some v →
        parse_responses json_data !! "bloc2" ≫= (.!! 1) = Some v) ∧
  (∀ v, json_data !! 46 = Some v →
        parse_responses json_data !! "bloc2" ≫= (.!! 16) = Some v) ∧
  (∀ v, json_data !! 72 = Some v →
        parse_responses json_data !! "bloc4" ≫= (.!! 14) = Some v) ∧
  (∀ bloc_name bloc k v,
      parse_responses json_data !! bloc_name = Some bloc →
      bloc !! k = Some v →
      ∃ lo hi offset,
        (bloc_name, lo, hi, offset) ∈ bloc_ranges ∧
        lo ≤ k + offset < hi ∧ 1 ≤ k + offset ≤ 72 ∧
        json_data !! (k + offset) = Some v) ∧
  (∀ g v, ¬ 1 ≤ g ≤ 72 →
      parse_responses (<[g := v]> json_data) = parse_responses json_data ∧
      parse_responses (delete g json_data) = parse_responses json_data).
Proof.
  pose proof (parse_responses_carries json_data) as Hgen.
  repeat split.
  - exact Hgen.
  - intros v Hv. apply (Hgen "bloc2" 31 47 30 31 v);
      [elem_of_literal|lia|done].
  - intros v Hv. apply (Hgen "bloc2" 31 47 30 46 v);
      [elem_of_literal|lia|done].
  - intros v Hv. apply (Hgen "bloc4" 59 73 58 72 v);
      [elem_of_literal|lia|done].
  - intros bloc_name bloc k v Hb Hk.
    assert (Hname : bloc_name ∈ bloc_names)
      by (apply (parse_responses_is_Some json_data); eauto).
    destruct (bloc_names_ranges _ Hname) as (lo & hi & offset & Hin).
    exists lo, hi, offset. split; [done|].
    rewrite (parse_responses_entry _ _ _ _ _ _ k Hin Hb) in Hk.
    case_bool_decide; [|done].
    pose proof (bloc_ranges_bounds _ _ _ _ Hin) as (_ & ? & ?).
    repeat split; try done; lia.
  - apply map_eq. intros bloc_name.
    destruct (decide (bloc_name ∈ bloc_names)) as [Hname|Hname].
    + destruct (bloc_names_ranges _ Hname) as (lo & hi & offset & Hin).
      rewrite !(parse_responses_lookup _ _ _ _ _ Hin). f_equal.
      apply map_eq. intros k. rewrite !fill_lookup, !lookup_empty.
      case_bool_decide as Hk; [|done].
      unfold range in Hk. apply elem_of_seqZ in Hk.
      pose proof (bloc_ranges_bounds _ _ _ _ Hin) as (_ & ? & ?).
      rewrite lookup_insert_ne by lia. done.
    + destruct (parse_responses (<[g:=v]> json_data) !! bloc_name) eqn:E1.
      { exfalso. apply Hname. eapply parse_responses_is_Some; eauto. }
      destruct (parse_responses json_data !! bloc_name) eqn:E2; [|done].
      exfalso. apply Hname. eapply parse_responses_is_Some; eauto.
  - apply map_eq. intros bloc_name.
    destruct (decide (bloc_name ∈ bloc_names)) as [Hname|Hname].
    + destruct (bloc_names_ranges _ Hname) as (lo & hi & offset & Hin).
      rewrite !(parse_responses_lookup _ _ _ _ _ Hin). f_equal.
      apply map_eq. intros k. rewrite !fill_lookup, !lookup_empty.
      case_bool_decide as Hk; [|done].
      unfold range in Hk. apply elem_of_seqZ in Hk.
      pose proof (bloc_ranges_bounds _ _ _ _ Hin) as (_ & ? & ?).
      rewrite lookup_delete_ne by lia. done.
    + destruct (parse_responses (delete g json_data) !! bloc_name) eqn:E1.
      { exfalso. apply Hname. eapply parse_responses_is_Some; eauto. }
      destruct (parse_responses json_data !! bloc_name) eqn:E2; [|done].
      exfalso. apply Hname. eapply parse_responses_is_Some; eauto.
Qed.

Lemma parse_responses_offsets_witness :
  parse_responses {[ 0 := 9; 31 := 4; 73 := 9 ]} !! "bloc2" ≫= (.!! 1)
  = Some 4.
Proof.
  apply (proj1 (proj2 (parse_responses_offsets {[ 0 := 9; 31 := 4; 73 := 9 ]}))).
  by vm_compute.
Defined.

(** ** The scorer *)

Section scorer.
Context (axis_name : string) (config : AxisConfig)
        (responses : gmap string (gmap Z Z)).

(** The inner loop either collects one value per item, all of them
    answered, or stops at an item of the list: with [KeyError] when the
    block itself is not in [responses], with [ValueError_item] when the
    item is not in the block. *)
Lemma collect_items_spec bloc_name items values :
  match collect_items axis_name config responses bloc_name items values with
  | inr values' =>
      length values' = (length values + length items)%nat ∧
      (items = [] → values' = values) ∧
      ∀ i, i ∈ items → is_Some (responses !! bloc_name ≫= (.!! i))
  | inl e =>
      (e = KeyError bloc_name ∧ items ≠ [] ∧ responses !! bloc_name = None) ∨
      ∃ i, e = ValueError_item axis_name bloc_name i ∧ i ∈ items ∧
           is_Some (responses !! bloc_name) ∧
           responses !! bloc_name ≫= (.!! i) = None
  end.
Proof.
  revert values. induction items as [|i items IH]; intros values; cbn.
  - split; [lia|]. split; [done|]. intros i []%elem_of_nil.
  - unfold getitem. destruct (responses !! bloc_name) as [bloc|] eqn:Hb; cbn.
    2: { left. done. }
    destruct (bloc !! i) as [value|] eqn:Hi; cbn.
    2: { right. exists i. rewrite Hi. repeat split; eauto. left. }
    specialize (IH (values ++
      [if bool_decide ((bloc_name, i) ∈ invert config)
       then invert_score value else value])).
    destruct (collect_items _ _ _ _ _ _) as [e|values'].
    + destruct IH as [(-> & _ & [=])|(j & -> & Hj & _ & Hnone)].
      right. exists j. repeat split; eauto. by right.
    + destruct IH as (Hlen & _ & Hall). rewrite length_app in Hlen. cbn in Hlen.
      split; [lia|]. split; [done|].
      intros j [->|Hj]%elem_of_cons; [rewrite Hi; eauto|]. by apply Hall.
Qed.

(** The outer loop, over any list of block names. *)
Lemma collect_blocs_spec names values :
  match collect_blocs axis_name config responses names values with
  | inr values' =>
      (length values ≤ length values')%nat ∧
      ((∀ bloc_name items, bloc_name ∈ names →
          blocs config !! bloc_name = Some items → items = []) →
       values' = values) ∧
      ∀ bloc_name items i,
        bloc_name ∈ names → blocs config !! bloc_name = Some items →
        i ∈ items → is_Some (responses !! bloc_name ≫= (.!! i))
  | inl e =>
      ∃ bloc_name items,
        bloc_name ∈ names ∧ blocs config !! bloc_name = Some items ∧
        ((e = KeyError bloc_name ∧ items ≠ [] ∧
          responses !! bloc_name = None) ∨
         ∃ i, e = ValueError_item axis_name bloc_name i ∧ i ∈ items ∧
              is_Some (responses !! bloc_name) ∧
              responses !! bloc_name ≫= (.!! i) = None)
  end.
Proof.
  revert values. induction names as [|bloc_name names IH]; intros values; cbn.
  - split; [lia|]. split; [done|]. by intros ? ? ? []%elem_of_nil.
  - destruct (blocs config !! bloc_name) as [items|] eqn:Hc.
    + pose proof (collect_items_spec bloc_name items values) as Hitems.
      destruct (collect_items _ _ _ _ _ _) as [e|values1]; cbn.
      { exists bloc_name, items. split; [left|]. done. }
      destruct Hitems as (Hlen & Hnil & Hall).
      specialize (IH values1).
      destruct (collect_blocs _ _ _ _ _) as [e|values2].
      * destruct IH as (b & its & Hb & Hcb & Hcase).
        exists b, its. split; [by right|done].
      * destruct IH as (Hle & Hsame & Hall2). split; [lia|]. split.
        -- intros Hempty.
           rewrite Hsame, Hnil; [done| |].
           ++ eapply Hempty; [left|done].
           ++ intros b its Hb. apply Hempty. by right.
        -- intros b its i [->|Hb]%elem_of_cons Hcb Hi.
           ++ rewrite Hc in Hcb. injection Hcb as <-. by apply Hall.
           ++ by eapply Hall2.
    + specialize (IH values).
      destruct (collect_blocs _ _ _ _ _) as [e|values2].
      * destruct IH as (b & its & Hb & Hcb & Hcase).
        exists b, its. split; [by right|done].
      * destruct IH as (Hle & Hsame & Hall2). split; [done|]. split.
        -- intros Hempty. apply Hsame. intros b its Hb.
           apply Hempty. by right.
        -- intros b its i [->|Hb]%elem_of_cons Hcb Hi.
           ++ by rewrite Hc in Hcb.
           ++ by eapply Hall2.
Qed.
End scorer.

(** With the four blocks in [responses], the only error of the two loops
    is the missing item. *)
Lemma collect_blocs_error axis_name config responses e :
  (∀ bloc_name, bloc_name ∈ bloc_names → is_Some (responses !! bloc_name)) →
  collect_blocs axis_name config responses bloc_names [] = inl e →
  ∃ bloc_name items i,
    e = ValueError_item axis_name bloc_name i ∧
    bloc_name ∈ bloc_names ∧ blocs config !! bloc_name = Some items ∧
    i ∈ items ∧ responses !! bloc_name ≫= (.!! i) = None.
Proof.
  intros Hwf He.
  pose proof (collect_blocs_spec axis_name config responses bloc_names []) as H.
  rewrite He in H. destruct H as (b & items & Hb & Hc & [(_ & _ & HN)|Hi]).
  - destruct (Hwf b Hb) as [? ?]. congruence.
  - destruct Hi as (i & -> & Hi & _ & Hnone). by exists b, items, i.
Qed.

Lemma compute_axis_score_error axis_name config responses e :
  collect_blocs axis_name config responses bloc_names [] = inl e →
  compute_axis_score axis_name config responses = inl e.
Proof. intros He. unfold compute_axis_score. by rewrite He. Qed.

(** The first lookup of the first axis is bloc1 item 1. *)
Lemma score_axes_first_item responses bloc :
  responses !! "bloc1" = Some bloc → bloc !! 1 = None →
  score_axes AXES_CONFIG responses []
  = inl (ValueError_item "Ouverture & Curiosité" "bloc1" 1).
Proof.
  intros Hb H1. unfold AXES_CONFIG.
  match goal with
  | |- score_axes ((?n, ?c) :: ?rest) _ _ = _ =>
      change (score_axes ((n, c) :: rest) responses [])
        with (compute_axis_score n c responses
                ≫= fun score => score_axes rest responses (dict_set [] n score));
      rewrite (compute_axis_score_error n c responses
                 (ValueError_item n "bloc1" 1)); [reflexivity|]
  end.
  unfold bloc_names. cbn [collect_blocs blocs].
  replace (({[ "bloc1" := range 1 7; "bloc2" := [14]; "bloc3" := [3; 6] ]}
             : gmap string (list Z)) !! "bloc1")
    with (Some (1 :: range 2 7)) by (by vm_compute).
  cbn [collect_items]. unfold getitem. rewrite Hb. cbn. by rewrite H1.
Qed.

(** C2. When the four blocks are in [responses] (as in every result of
    [parse_responses]) and some item listed by the axis under one of the
    four block names is not in its block, [compute_axis_score] raises the
    missing-item [ValueError] carrying the axis name, and the block and
    item number of such an item.  A raw answer map without global item 1
    makes [compute_all_scores] raise it for "Ouverture & Curiosité",
    bloc1, item 1, so no score map is returned. *)
Theorem compute_axis_score_missing_item :
  (∀ axis_name config (responses : gmap string (gmap Z Z)),
      (∀ bloc_name, bloc_name ∈ bloc_names →
                    is_Some (responses !! bloc_name)) →
      (∃ bloc_name items i,
          bloc_name ∈ bloc_names ∧ blocs config !! bloc_name = Some items ∧
          i ∈ items ∧ responses !! bloc_name ≫= (.!! i) = None) →
      ∃ bloc_name items i,
        compute_axis_score axis_name config responses
        = inl (ValueError_item axis_name bloc_name i) ∧
        bloc_name ∈ bloc_names ∧ blocs config !! bloc_name = Some items ∧
        i ∈ items ∧ responses !! bloc_name ≫= (.!! i) = None) ∧
  (∀ axis_name config (json_data : gmap Z Z),
      (∃ bloc_name items i,
          bloc_name ∈ bloc_names ∧ blocs config !! bloc_name = Some items ∧
          i ∈ items ∧
          parse_responses json_data !! bloc_name ≫= (.!! i) = None) →
      ∃ bloc_name i,
        compute_axis_score axis_name config (parse_responses json_data)
        = inl (ValueError_item axis_name bloc_name i) ∧
        parse_responses json_data !! bloc_name ≫= (.!! i) = None) ∧
  (∀ json_data : gmap Z Z,
      json_data !! 1 = None →
      compute_all_scores json_data
      = inl (ValueError_item "Ouverture & Curiosité" "bloc1" 1)).
Proof.
  assert (Hgen : ∀ axis_name config (responses : gmap string (gmap Z Z)),
      (∀ bloc_name, bloc_name ∈ bloc_names →
                    is_Some (responses !! bloc_name)) →
      (∃ bloc_name items i,
          bloc_name ∈ bloc_names ∧ blocs config !! bloc_name = Some items ∧
          i ∈ items ∧ responses !! bloc_name ≫= (.!! i) = None) →
      ∃ bloc_name items i,
        compute_axis_score axis_name config responses
        = inl (ValueError_item axis_name bloc_name i) ∧
        bloc_name ∈ bloc_names ∧ blocs config !! bloc_name = Some items ∧
        i ∈ items ∧ responses !! bloc_name ≫= (.!! i) = None).
  { intros axis_name config responses Hwf (b & items & i & Hb & Hc & Hi & Hnone).
    destruct (collect_blocs axis_name config responses bloc_names [])
      as [e|values] eqn:Hcollect.
    - destruct (collect_blocs_error _ _ _ _ Hwf Hcollect)
        as (b' & items' & i' & -> & ? & ? & ? & ?).
      exists b', items', i'.
      by rewrite (compute_axis_score_error _ _ _ _ Hcollect).
    - pose proof (collect_blocs_spec axis_name config responses bloc_names [])
        as H.
      rewrite Hcollect in H. destruct H as (_ & _ & Hall).
      destruct (Hall b items i Hb Hc Hi) as [? ?]. congruence. }
  split; [exact Hgen|]. split.
  - intros axis_name config json_data Hex.
    destruct (Hgen axis_name config (parse_responses json_data))
      as (b & items & i & ? & ? & ? & ? & ?); [|done|by exists b, i].
    intros b Hb. by apply parse_responses_is_Some.
  - intros json_data H1. unfold compute_all_scores.
    eapply score_axes_first_item.
    + apply (parse_responses_lookup json_data "bloc1" 1 31 0). elem_of_literal.
    + rewrite fill_lookup, lookup_empty. change (1 + 0) with 1.
      rewrite H1. by case_bool_decide.
Qed.

Lemma compute_axis_score_missing_item_witness :
  compute_all_scores (delete 1 (all_items 3))
  = inl (ValueError_item "Ouverture & Curiosité" "bloc1" 1).
Proof.
  apply (proj2 (proj2 compute_axis_score_missing_item)).
  apply lookup_delete_eq.
Defined.

(** C8. An axis whose lists of items are all empty scores 0.0, and no input
    makes [compute_axis_score] raise [ZeroDivisionError]: the mean is
    computed only from a non-empty list of values. *)
Theorem compute_axis_score_no_items :
  (∀ axis_name config (responses : gmap string (gmap Z Z)),
      (∀ bloc_name items, bloc_name ∈ bloc_names →
          blocs config !! bloc_name = Some items → items = []) →
      compute_axis_score axis_name config responses = inr (Finite 0)) ∧
  (∀ axis_name config (responses : gmap string (gmap Z Z)),
      compute_axis_score axis_name config responses ≠ inl ZeroDivisionError).
Proof.
  split; intros axis_name config responses.
  - intros Hempty. unfold compute_axis_score.
    pose proof (collect_blocs_spec axis_name config responses bloc_names [])
      as H.
    destruct (collect_blocs _ _ _ _ _) as [e|values].
    + destruct H as (b & items & Hb & Hc & Hcase).
      rewrite (Hempty b items Hb Hc) in Hcase.
      destruct Hcase as [(_ & ? & _)|(i & _ & []%elem_of_nil & _)]; done.
    + destruct H as (_ & -> & _); [reflexivity|exact Hempty].
  - unfold compute_axis_score.
    pose proof (collect_blocs_spec axis_name config responses bloc_names [])
      as H.
    destruct (collect_blocs _ _ _ _ _) as [e|values]; cbn.
    + destruct H as (b & items & _ & _ & [(-> & _)|(i & -> & _)]); done.
    + destruct values as [|value values]; [done|].
      unfold int_truediv. rewrite bool_decide_eq_false_2 by (cbn; lia).
      by destruct (round_b64 _).
Qed.

Lemma compute_axis_score_no_items_witness :
  compute_axis_score "Drive & Motivation"
    {| blocs := {[ "bloc1" := []; "bloc3" := [] ]}; invert := [] |} ∅
  = inr (Finite 0).
Proof.
  apply (proj1 compute_axis_score_no_items).
  intros bloc_name items Hb Hc. unfold bloc_names in Hb.
  repeat (apply elem_of_cons in Hb as [->|Hb]);
    [ | | | | by apply elem_of_nil in Hb ];
    vm_compute in Hc; congruence.
Defined.

(** C10. [parse_responses] always returns a map with exactly the keys "bloc1",
    "bloc2", "bloc3" and "bloc4"; every rating of an item 1..72 of the
    input is in the block of its range, unchanged; and [compute_axis_score]
    on such a result never raises [KeyError]. *)
Theorem parse_responses_blocs (json_data : gmap Z Z) :
  dom (parse_responses json_data) = list_to_set bloc_names ∧
  (∀ g v, 1 ≤ g ≤ 72 → json_data !! g = Some v →
      ∃ bloc_name lo hi offset,
        (bloc_name, lo, hi, offset) ∈ bloc_ranges ∧ lo ≤ g < hi ∧
        parse_responses json_data !! bloc_name ≫= (.!! (g - offset))
        = Some v) ∧
  (∀ axis_name config key,
      compute_axis_score axis_name config (parse_responses json_data)
      ≠ inl (KeyError key)).
Proof.
  repeat split.
  - apply set_eq. intros b. rewrite elem_of_dom, elem_of_list_to_set.
    apply parse_responses_is_Some.
  - intros g v Hg Hv.
    assert (Hcase : 1 ≤ g < 31 ∨ 31 ≤ g < 47 ∨ 47 ≤ g < 59 ∨ 59 ≤ g < 73)
      by lia.
    destruct Hcase as [?|[?|[?|?]]].
    + exists "bloc1", 1, 31, 0. split; [elem_of_literal|]. split; [done|].
      apply (parse_responses_carries _ _ 1 31); [elem_of_literal|done|done].
    + exists "bloc2", 31, 47, 30. split; [elem_of_literal|]. split; [done|].
      apply (parse_responses_carries _ _ 31 47); [elem_of_literal|done|done].
    + exists "bloc3", 47, 59, 46. split; [elem_of_literal|]. split; [done|].
      apply (parse_responses_carries _ _ 47 59); [elem_of_literal|done|done].
    + exists "bloc4", 59, 73, 58. split; [elem_of_literal|]. split; [done|].
      apply (parse_responses_carries _ _ 59 73); [elem_of_literal|done|done].
  - intros axis_name config key. unfold compute_axis_score.
    destruct (collect_blocs axis_name config (parse_responses json_data)
                bloc_names []) as [e|values] eqn:Hcollect; cbn.
    + apply collect_blocs_error in Hcollect
        as (b & items & i & -> & _); [done|].
      intros b Hb. by apply parse_responses_is_Some.
    + destruct values as [|value values]; [done|].
      unfold int_truediv. case_bool_decide; [done|].
      by destruct (round_b64 _).
Qed.

(** ** End to end *)

Lemma all_items_lookup v g :
  all_items v !! g = if bool_decide (1 ≤ g ≤ 72) then Some v else None.
Proof.
  unfold all_items.
  assert (Hl : ∀ l : list Z,
             (list_to_map ((fun i => (i, v)) <$> l) : gmap Z Z) !! g
             = if bool_decide (g ∈ l) then Some v else None).
  { induction l as [|i l IH]; [done|]. cbn [fmap list_fmap list_to_map foldr].
    destruct (decide (g = i)) as [->|Hne].
    - rewrite lookup_insert_eq, bool_decide_eq_true_2; [done|left].
    - rewrite lookup_insert_ne, IH by done.
      rewrite (bool_decide_ext (g ∈ i :: l) (g ∈ l)); [done|].
      rewrite elem_of_cons. tauto. }
  rewrite Hl. rewrite (bool_decide_ext (g ∈ range 1 73) (1 ≤ g ≤ 72)); [done|].
  unfold range. rewrite elem_of_seqZ. lia.
Qed.

(** C1. With the rating 3 on every item 1..72, [compute_all_scores] returns
    the score map of the eight axes, in the order of [AXES_CONFIG], with
    the score 50.0 on each. *)
Theorem compute_all_scores_neutral :
  (∀ g, all_items 3 !! g = if bool_decide (1 ≤ g ≤ 72) then Some 3 else None) ∧
  compute_all_scores (all_items 3)
  = inr [ ("Ouverture & Curiosité", Finite 50);
          ("Discipline & Fiabilité", Finite 50);
          ("Influence & Présence", Finite 50);
          ("Coopération", Finite 50);
          ("Résilience & Stress", Finite 50);
          ("Drive & Motivation", Finite 50);
          ("Style d'action", Finite 50);
          ("Alignement stratégique", Finite 50) ].
Proof.
  split; [apply all_items_lookup | by vm_compute].
Qed.

(** C3. With the rating 5 on every item 1..72, "Résilience & Stress", whose
    configuration inverts bloc2 items 1 to 8, scores 42.86, strictly less
    than 100.0, and "Discipline & Fiabilité", which inverts nothing,
    scores exactly 100.0. *)
Theorem compute_all_scores_extreme :
  (∀ g, all_items 5 !! g = if bool_decide (1 ≤ g ≤ 72) then Some 5 else None) ∧
  ((fun p => (p.1, invert p.2)) <$> AXES_CONFIG !! 4%nat
   = Some ("Résilience & Stress",
           [ ("bloc2", 1); ("bloc2", 2); ("bloc2", 3); ("bloc2", 4);
             ("bloc2", 5); ("bloc2", 6); ("bloc2", 7); ("bloc2", 8) ])) ∧
  ((fun p => (p.1, invert p.2)) <$> AXES_CONFIG !! 1%nat
   = Some ("Discipline & Fiabilité", [])) ∧
  ∃ scores resilience,
    compute_all_scores (all_items 5) = inr scores ∧
    scores !! 4%nat = Some ("Résilience & Stress", resilience) ∧
    score_of scores "Résilience & Stress" = Some resilience ∧
    resilience = round_b64 (4286 # 100) ∧
    flt resilience (Finite 100) = true ∧
    scores !! 1%nat = Some ("Discipline & Fiabilité", Finite 100) ∧
    score_of scores "Discipline & Fiabilité" = Some (Finite 100).
Proof.
  split; [apply all_items_lookup|].
  split; [by vm_compute|]. split; [by vm_compute|].
  eexists _, _. split; [by vm_compute|].
  repeat split; by vm_compute.
Qed.

(** ** The radar chart *)

(** C9. A score map that does not have exactly 8 entries makes [plot_kiviat]
    raise its [ValueError] before any call to numpy or matplotlib. *)
Theorem plot_kiviat_requires_8 (scores : list (string * float))
    (save_path : option string) :
  length scores ≠ 8%nat →
  plot_kiviat scores save_path = ([], inl (ValueError_axes (length scores))).
Proof.
  intros Hlen. unfold plot_kiviat. by rewrite bool_decide_eq_true_2.
Qed.

Lemma plot_kiviat_requires_8_witness :
  plot_kiviat (take 7 ((fun p => (p.1, Finite 50)) <$> AXES_CONFIG))
              (Some "nyota_profile.png")
  = ([], inl (ValueError_axes 7)).
Proof.
  assert (Hlen : length (take 7 ((fun p : string * AxisConfig =>
                                    (p.1, Finite 50)) <$> AXES_CONFIG))
                 ≠ 8%nat) by (vm_compute; lia).
  exact (plot_kiviat_requires_8 _ (Some "nyota_profile.png") Hlen).
Defined.

(** * Further properties *)

(** ** Order and exactness of rounding *)

Section rounding_order.
Local Open Scope Q_scope.

Lemma Qlog2_floor_unique (x : Q) (L : Z) :
  0 < x → 2 ^ L <= x → x < 2 ^ (L + 1) → Qlog2_floor x = L.
Proof.
  intros Hpos Hlo Hhi.
  destruct (Qlog2_floor_spec x Hpos) as [Hlo' Hhi'].
  assert (2 ^ L < 2 ^ (Qlog2_floor x + 1)) as H1 by (eapply Qle_lt_trans; eauto).
  assert (2 ^ Qlog2_floor x < 2 ^ (L + 1)) as H2 by (eapply Qle_lt_trans; eauto).
  apply Qpower_lt_compat_l_inv in H1, H2; [lia|done|done].
Qed.

Lemma Qlog2_floor_proper (x y : Q) :
  0 < x → x == y → Qlog2_floor x = Qlog2_floor y.
Proof.
  intros Hpos Hxy. assert (0 < y) as Hy by (by rewrite <- Hxy).
  destruct (Qlog2_floor_spec y Hy) as [Hlo Hhi].
  apply Qlog2_floor_unique; [done| |]; by rewrite Hxy.
Qed.

Lemma Qlog2_floor_mono (x y : Q) :
  0 < x → x <= y → (Qlog2_floor x ≤ Qlog2_floor y)%Z.
Proof.
  intros Hx Hxy. assert (0 < y) as Hy by lra.
  destruct (Qlog2_floor_spec x Hx) as [Hlo _].
  destruct (Qlog2_floor_spec y Hy) as [_ Hhi].
  assert (2 ^ Qlog2_floor x < 2 ^ (Qlog2_floor y + 1)) as H by lra.
  apply Qpower_lt_compat_l_inv in H; [lia|done].
Qed.

Lemma Qabs_pos_lt (x : Q) : ¬ x == 0 → 0 < Qabs x.
Proof.
  intros H0. destruct (Qlt_le_dec 0 x) as [Hx|Hx].
  - rewrite Qabs_pos; lra.
  - rewrite Qabs_neg by done.
    apply Qle_lteq in Hx as [Hx|Hx]; [lra|done].
Qed.

Lemma ulp_exp_proper (x y : Q) : ¬ x == 0 → x == y → ulp_exp x = ulp_exp y.
Proof.
  intros H0 Hxy. unfold ulp_exp.
  rewrite (Qlog2_floor_proper (Qabs x) (Qabs y)); [done| |by rewrite Hxy].
  by apply Qabs_pos_lt.
Qed.

Lemma ulp_exp_opp (x : Q) : ¬ x == 0 → ulp_exp (- x) = ulp_exp x.
Proof.
  intros H0. unfold ulp_exp.
  rewrite (Qlog2_floor_proper (Qabs (- x)) (Qabs x)); [done| |apply Qabs_opp].
  apply Qabs_pos_lt. lra.
Qed.

Lemma ulp_exp_mono (x y : Q) : 0 < x → x <= y → (ulp_exp x ≤ ulp_exp y)%Z.
Proof.
  intros Hx Hxy. unfold ulp_exp.
  rewrite (Qlog2_floor_proper (Qabs x) x), (Qlog2_floor_proper (Qabs y) y);
    try (rewrite Qabs_pos; lra); try (apply Qabs_pos; lra).
  pose proof (Qlog2_floor_mono x y Hx Hxy). lia.
Qed.

Lemma rnd_half_even_proper (x y : Q) :
  x == y → rnd_half_even x = rnd_half_even y.
Proof.
  intros Hxy. unfold rnd_half_even.
  rewrite (Qfloor_comp _ _ Hxy).
  assert ((x - inject_Z (Qfloor y) ?= 1 # 2) = (y - inject_Z (Qfloor y) ?= 1 # 2))
    as -> by (by rewrite Hxy).
  done.
Qed.

Lemma rnd_half_even_mono (x y : Q) :
  x <= y → (rnd_half_even x ≤ rnd_half_even y)%Z.
Proof.
  intros Hxy. unfold rnd_half_even.
  pose proof (Qfloor_resp_le x y Hxy) as Hf.
  pose proof (Qfloor_le x) as Hx1. pose proof (Qlt_floor x) as Hx2.
  pose proof (Qfloor_le y) as Hy1. pose proof (Qlt_floor y) as Hy2.
  rewrite inject_Z_plus in Hx2, Hy2.
  change (inject_Z 1) with 1 in Hx2, Hy2.
  destruct (Z_le_lt_eq_dec _ _ Hf) as [Hlt|Heq].
  - assert (Qfloor x + 1 ≤ Qfloor y)%Z by lia.
    destruct (Qcompare _ _); destruct (Qcompare _ _);
      repeat destruct (Z.even _); lia.
  - rewrite <- Heq in *.
    destruct (Qcompare_spec (x - inject_Z (Qfloor x)) (1 # 2));
      destruct (Qcompare_spec (y - inject_Z (Qfloor x)) (1 # 2));
      try destruct (Z.even _); try lia; lra.
Qed.

Lemma Qfloor_unique (x : Q) (z : Z) :
  inject_Z z <= x → x < inject_Z z + 1 → Qfloor x = z.
Proof.
  intros Hlo Hhi.
  pose proof (Qfloor_resp_le _ _ Hlo) as H1. rewrite Qfloor_Z in H1.
  pose proof (Qfloor_le x) as H2.
  assert (inject_Z (Qfloor x) < inject_Z (z + 1)) as H3
    by (rewrite inject_Z_plus; change (inject_Z 1) with 1; lra).
  rewrite <- Zlt_Qlt in H3. lia.
Qed.

Lemma rnd_half_even_opp (x : Q) : rnd_half_even (- x) = (- rnd_half_even x)%Z.
Proof.
  unfold rnd_half_even.
  pose proof (Qfloor_le x) as Hx1. pose proof (Qlt_floor x) as Hx2.
  rewrite inject_Z_plus in Hx2. change (inject_Z 1) with 1 in Hx2.
  set (f := Qfloor x) in *.
  apply Qle_lteq in Hx1 as [Hlt|Heq].
  - assert (Qfloor (- x) = - f - 1)%Z as ->.
    { apply Qfloor_unique; unfold Z.sub;
        rewrite !inject_Z_plus, !inject_Z_opp;
        change (inject_Z 1) with 1; lra. }
    assert (Z.even (- f - 1) = negb (Z.even f)) as Hev.
    { replace (- f - 1)%Z with (- Z.succ f)%Z by lia.
      by rewrite Z.even_opp, Z.even_succ, <- Z.negb_even. }
    assert (inject_Z (- f - 1) == - inject_Z f - 1) as Hinj.
    { unfold Z.sub. rewrite !inject_Z_plus, !inject_Z_opp. reflexivity. }
    destruct (Qcompare_spec (x - inject_Z f) (1 # 2));
      destruct (Qcompare_spec (- x - inject_Z (- f - 1)) (1 # 2));
      rewrite ?Hev; try destruct (Z.even f); cbn [negb]; try lia; lra.
  - assert (Qfloor (- x) = - f)%Z as ->.
    { apply Qfloor_unique; rewrite inject_Z_opp; lra. }
    assert (inject_Z (- f) == - inject_Z f) as Hinj by (by rewrite inject_Z_opp).
    destruct (Qcompare_spec (x - inject_Z f) (1 # 2));
      destruct (Qcompare_spec (- x - inject_Z (- f)) (1 # 2));
      try lia; lra.
Qed.

Lemma rnd_half_even_0 (x : Q) : x == 0 → rnd_half_even x = 0%Z.
Proof. intros Hx. by rewrite (rnd_half_even_proper x 0 Hx). Qed.

Lemma round_exact_0 (x : Q) : x == 0 → round_exact x == 0.
Proof.
  intros Hx. unfold round_exact. generalize (2 ^ ulp_exp x). intros p.
  rewrite (rnd_half_even_0 (x / p)); [ring|]. rewrite Hx. reflexivity.
Qed.

Lemma round_b64_unfold (x : Q) : round_b64 x = overflow (Qred (round_exact x)).
Proof.
  unfold round_b64. destruct (Qeq_bool x 0) eqn:T0; [|done].
  apply Qeq_bool_eq, round_exact_0 in T0.
  by rewrite (Qred_complete _ 0 T0).
Qed.

Lemma round_exact_proper (x y : Q) : x == y → round_exact x == round_exact y.
Proof.
  intros Hxy. destruct (Qeq_dec x 0) as [H0|H0].
  - rewrite (round_exact_0 x H0), (round_exact_0 y); [done|by rewrite <- Hxy].
  - unfold round_exact. rewrite <- (ulp_exp_proper x y H0 Hxy).
    generalize (2 ^ ulp_exp x). intros p.
    rewrite (rnd_half_even_proper (x / p) (y / p)); [done|].
    by rewrite Hxy.
Qed.

Lemma round_b64_proper (x y : Q) : x == y → round_b64 x = round_b64 y.
Proof.
  intros Hxy. rewrite !round_b64_unfold.
  by rewrite (Qred_complete _ _ (round_exact_proper x y Hxy)).
Qed.

Lemma round_exact_opp (x : Q) : round_exact (- x) == - round_exact x.
Proof.
  destruct (Qeq_dec x 0) as [H0|H0].
  - rewrite (round_exact_0 x H0), (round_exact_0 (- x)); [done|by rewrite H0].
  - unfold round_exact. rewrite (ulp_exp_opp x H0).
    rewrite (rnd_half_even_proper (- x / _) (- (x / 2 ^ ulp_exp x)))
      by (unfold Qdiv; ring).
    rewrite rnd_half_even_opp, inject_Z_opp. ring.
Qed.

Lemma round_exact_nonneg (x : Q) : 0 <= x → 0 <= round_exact x.
Proof.
  intros Hx. unfold round_exact.
  assert (0 < 2 ^ ulp_exp x) as Hp by (apply Qpower_0_lt; reflexivity).
  apply Qmult_le_0_compat; [|lra].
  change 0 with (inject_Z 0). rewrite <- Zle_Qle.
  apply rnd_half_even_nonneg. apply Qle_shift_div_l; [done|lra].
Qed.

(** Below the top of its binade the rounded mantissa has at most 53
    bits, and in a normal binade at least 53. *)
Lemma mantissa_upper (x : Q) :
  0 < x → x / 2 ^ ulp_exp x <= 2 ^ 53.
Proof.
  intros Hx.
  assert (0 < 2 ^ ulp_exp x) as Hp by (apply Qpower_0_lt; reflexivity).
  destruct (Qlog2_floor_spec x Hx) as [_ Hup].
  assert (Qlog2_floor x + 1 ≤ ulp_exp x + 53)%Z as Hexp.
  { unfold ulp_exp, prec.
    rewrite (Qlog2_floor_proper (Qabs x) x); [lia|rewrite Qabs_pos; lra|].
    apply Qabs_pos; lra. }
  apply (Qpower_le_compat_l 2) in Hexp; [|done].
  rewrite (Qpower_plus 2 (ulp_exp x) 53) in Hexp by done.
  apply Qle_shift_div_r; [done|]. rewrite Qmult_comm. lra.
Qed.

Lemma mantissa_lower (x : Q) :
  0 < x → (emin < ulp_exp x)%Z → 2 ^ 52 <= x / 2 ^ ulp_exp x.
Proof.
  intros Hx He.
  assert (0 < 2 ^ ulp_exp x) as Hp by (apply Qpower_0_lt; reflexivity).
  destruct (Qlog2_floor_spec x Hx) as [Hlo _].
  assert (Qlog2_floor x = ulp_exp x + 52)%Z as HL.
  { revert He. unfold ulp_exp, prec.
    rewrite (Qlog2_floor_proper (Qabs x) x); [lia|rewrite Qabs_pos; lra|].
    apply Qabs_pos; lra. }
  rewrite HL, (Qpower_plus 2 (ulp_exp x) 52) in Hlo by done.
  apply Qle_shift_div_l; [done|]. rewrite Qmult_comm. lra.
Qed.

Lemma round_exact_mono_pos (x y : Q) :
  0 < x → x <= y → round_exact x <= round_exact y.
Proof.
  intros Hx Hxy. assert (0 < y) as Hy by lra.
  pose proof (ulp_exp_mono x y Hx Hxy) as He.
  assert (0 < 2 ^ ulp_exp x) as Hpx by (apply Qpower_0_lt; reflexivity).
  assert (0 < 2 ^ ulp_exp y) as Hpy by (apply Qpower_0_lt; reflexivity).
  unfold round_exact.
  destruct (Z_le_lt_eq_dec _ _ He) as [Hlt|Heq].
  - pose proof (mantissa_upper x Hx) as Hu.
    assert (emin < ulp_exp y)%Z as Hmin by (unfold ulp_exp in *; lia).
    pose proof (mantissa_lower y Hy Hmin) as Hl.
    change (2 ^ 53) with (inject_Z (2 ^ 53)) in Hu.
    change (2 ^ 52) with (inject_Z (2 ^ 52)) in Hl.
    apply rnd_half_even_le in Hu. apply rnd_half_even_ge in Hl.
    rewrite Zle_Qle in Hu, Hl.
    assert (ulp_exp x + 1 ≤ ulp_exp y)%Z as Hexp by lia.
    apply (Qpower_le_compat_l 2) in Hexp; [|done].
    rewrite (Qpower_plus 2 (ulp_exp x) 1) in Hexp by done.
    change (2 ^ 1) with 2 in Hexp.
    set (px := 2 ^ ulp_exp x) in *. set (py := 2 ^ ulp_exp y) in *.
    apply Qle_trans with (inject_Z (2 ^ 53) * px);
      [apply Qmult_le_compat_r; lra|].
    apply Qle_trans with (inject_Z (2 ^ 52) * py);
      [|apply Qmult_le_compat_r; lra].
    change (inject_Z (2 ^ 53)) with (2 * inject_Z (2 ^ 52)).
    assert (0 < inject_Z (2 ^ 52)) by reflexivity. nra.
  - rewrite <- Heq. apply Qmult_le_compat_r; [|lra].
    rewrite <- Zle_Qle. apply rnd_half_even_mono.
    apply Qmult_le_compat_r; [done|].
    apply Qlt_le_weak, Qinv_lt_0_compat, Hpx.
Qed.

Lemma round_exact_mono (x y : Q) : x <= y → round_exact x <= round_exact y.
Proof.
  intros Hxy.
  destruct (Qlt_le_dec 0 x) as [Hx|Hx]; [by apply round_exact_mono_pos|].
  destruct (Qlt_le_dec 0 y) as [Hy|Hy].
  - pose proof (round_exact_nonneg y (Qlt_le_weak _ _ Hy)).
    pose proof (round_exact_nonneg (- x)) as Hn.
    rewrite round_exact_opp in Hn. lra.
  - apply Qle_lteq in Hy as [Hy|Hy].
    + pose proof (round_exact_mono_pos (- y) (- x)) as Hm.
      rewrite !round_exact_opp in Hm. lra.
    + pose proof (round_exact_0 y Hy).
      pose proof (round_exact_nonneg (- x)) as Hn.
      rewrite round_exact_opp in Hn. lra.
Qed.

Lemma overflow_mono (a b : Q) : a <= b → fle (overflow a) (overflow b) = true.
Proof.
  intros Hab. unfold overflow.
  assert (0 < 2 ^ emax) as Hm by (apply Qpower_0_lt; reflexivity).
  destruct (Qle_bool (2 ^ emax) a) eqn:A1;
    destruct (Qle_bool a (- 2 ^ emax)) eqn:A2;
    destruct (Qle_bool (2 ^ emax) b) eqn:B1;
    destruct (Qle_bool b (- 2 ^ emax)) eqn:B2; cbn; try done;
    repeat match goal with
           | H : Qle_bool _ _ = true |- _ => apply Qle_bool_imp_le in H
           | H : Qle_bool ?u ?v = false |- _ =>
               assert (¬ u <= v)
                 by (intros ?%Qle_bool_iff; congruence); clear H
           end;
    try (exfalso; lra).
  by apply Qle_bool_iff.
Qed.

(** [round_b64] is monotone. *)
Lemma round_b64_mono (x y : Q) :
  x <= y → fle (round_b64 x) (round_b64 y) = true.
Proof.
  intros Hxy. rewrite !round_b64_unfold. apply overflow_mono.
  rewrite !Qred_correct. by apply round_exact_mono.
Qed.

Lemma rnd_half_even_Z (z : Z) : rnd_half_even (inject_Z z) = z.
Proof.
  unfold rnd_half_even. rewrite Qfloor_Z.
  destruct (Qcompare_spec (inject_Z z - inject_Z z) (1 # 2)); [lra|done|lra].
Qed.

(** Ints below [2^53] are floats. *)
Lemma round_b64_Z (z : Z) :
  (0 ≤ z < 2 ^ 53)%Z → round_b64 (inject_Z z) = Finite (inject_Z z).
Proof.
  intros [Hz0 Hz]. destruct (decide (z = 0%Z)) as [->|Hne]; [done|].
  assert (0 < inject_Z z) as Hpos by (rewrite <- (Zlt_Qlt 0); lia).
  pose proof (ulp_exp_small (inject_Z z) z Hpos (Qle_refl _) Hz) as He.
  rewrite round_b64_unfold.
  assert (round_exact (inject_Z z) == inject_Z z) as Hexact.
  { unfold round_exact. set (e := ulp_exp (inject_Z z)) in *.
    assert (0 < 2 ^ e) as Hp by (apply Qpower_0_lt; reflexivity).
    assert (inject_Z z / 2 ^ e == inject_Z (z * 2 ^ (- e))) as HK.
    { rewrite inject_Z_mult, Zpower_Qpower by lia.
      change (inject_Z 2) with 2. rewrite Qpower_opp. reflexivity. }
    rewrite (rnd_half_even_proper _ _ HK), rnd_half_even_Z, <- HK.
    field. lra. }
  rewrite (Qred_complete _ _ Hexact), Qcanon.Qred_identity
    by (cbn; apply Z.gcd_1_r).
  unfold overflow.
  assert (inject_Z z < 2 ^ emax) as Hmax.
  { apply Qlt_le_trans with (inject_Z (2 ^ 53)); [by rewrite <- Zlt_Qlt|].
    by vm_compute. }
  assert (0 < 2 ^ emax) as Hm by (apply Qpower_0_lt; reflexivity).
  destruct (Qle_bool (2 ^ emax) _) eqn:T1;
    [apply Qle_bool_imp_le in T1; lra|].
  destruct (Qle_bool _ (- 2 ^ emax)) eqn:T2;
    [apply Qle_bool_imp_le in T2; lra|].
  done.
Qed.
End rounding_order.

(** ** Order on floats *)

Section float_order.
Local Open Scope Q_scope.

Lemma round_b64_not_NaN (x : Q) : round_b64 x ≠ NaN.
Proof.
  rewrite round_b64_unfold. unfold overflow.
  by repeat destruct (Qle_bool _ _).
Qed.

Lemma fle_PosInf (x : float) : x ≠ NaN → fle x PosInf = true.
Proof. by destruct x. Qed.

Lemma fle_NegInf (x : float) : x ≠ NaN → fle NegInf x = true.
Proof. by destruct x. Qed.

Lemma fle_trans (x y z : float) :
  fle x y = true → fle y z = true → fle x z = true.
Proof.
  destruct x, y, z; cbn; try done.
  intros H1%Qle_bool_imp_le H2%Qle_bool_imp_le. apply Qle_bool_iff. lra.
Qed.

Lemma fsub_mono (c : Q) (x y : float) :
  fle x y = true → fle (fsub x (Finite c)) (fsub y (Finite c)) = true.
Proof.
  destruct x as [a| | |], y as [b| | |]; cbn; try done.
  - intros Hab%Qle_bool_imp_le. apply round_b64_mono. lra.
  - intros _. apply fle_PosInf, round_b64_not_NaN.
  - intros _. apply fle_NegInf, round_b64_not_NaN.
Qed.

Lemma fdiv_mono (c : Q) (x y : float) :
  0 < c → fle x y = true →
  fle (fdiv x (Finite c)) (fdiv y (Finite c)) = true.
Proof.
  intros Hc.
  assert (Qeq_bool c 0 = false) as Hc0.
  { destruct (Qeq_bool c 0) eqn:E; [|done]. apply Qeq_bool_eq in E. lra. }
  assert (Qsign_neg c = false) as Hneg.
  { unfold Qsign_neg. rewrite Hc0.
    destruct (Qle_bool c 0) eqn:E; [|done]. apply Qle_bool_imp_le in E. lra. }
  destruct x as [a| | |], y as [b| | |]; cbn; rewrite ?Hc0, ?Hneg; try done.
  - intros Hab%Qle_bool_imp_le. apply round_b64_mono.
    apply Qmult_le_compat_r; [done|]. apply Qlt_le_weak, Qinv_lt_0_compat, Hc.
  - intros _. apply fle_PosInf, round_b64_not_NaN.
  - intros _. apply fle_NegInf, round_b64_not_NaN.
Qed.

Lemma fmul_mono (c : Q) (x y : float) :
  0 < c → fle x y = true →
  fle (fmul x (Finite c)) (fmul y (Finite c)) = true.
Proof.
  intros Hc.
  assert (Qeq_bool c 0 = false) as Hc0.
  { destruct (Qeq_bool c 0) eqn:E; [|done]. apply Qeq_bool_eq in E. lra. }
  assert (Qsign_neg c = false) as Hneg.
  { unfold Qsign_neg. rewrite Hc0.
    destruct (Qle_bool c 0) eqn:E; [|done]. apply Qle_bool_imp_le in E. lra. }
  destruct x as [a| | |], y as [b| | |]; cbn; rewrite ?Hc0, ?Hneg; try done.
  - intros Hab%Qle_bool_imp_le. apply round_b64_mono.
    apply Qmult_le_compat_r; [done|lra].
  - intros _. apply fle_PosInf, round_b64_not_NaN.
  - intros _. apply fle_NegInf, round_b64_not_NaN.
Qed.

Lemma round2_mono (x y : float) :
  fle x y = true → fle (round2 x) (round2 y) = true.
Proof.
  destruct x as [a| | |], y as [b| | |]; cbn; try done.
  - intros Hab%Qle_bool_imp_le. apply round_b64_mono.
    apply Qmult_le_compat_r; [|done].
    rewrite <- Zle_Qle. apply rnd_half_even_mono.
    apply Qmult_le_compat_r; [done|done].
  - intros _. apply fle_PosInf, round_b64_not_NaN.
  - intros _. apply fle_NegInf, round_b64_not_NaN.
Qed.

Lemma normalize_to_100_mono_aux (x y : float) :
  fle x y = true → fle (normalize_to_100 x) (normalize_to_100 y) = true.
Proof.
  intros Hxy. unfold normalize_to_100.
  replace (of_Z 1) with (Finite 1) by (by vm_compute).
  replace (of_Z 4) with (Finite 4) by (by vm_compute).
  replace (of_Z 100) with (Finite 100) by (by vm_compute).
  apply round2_mono, fmul_mono, fdiv_mono, fsub_mono; done.
Qed.
End float_order.

(** ** What an axis computes *)

Lemma mapM_app {A B} (f : A → option B) (l1 l2 : list A) :
  mapM f (l1 ++ l2)
  = k1 ← mapM f l1; k2 ← mapM f l2; Some (k1 ++ k2).
Proof.
  induction l1 as [|x l1 IH]; cbn.
  { by destruct (mapM f l2). }
  destruct (f x); cbn; [|done]. rewrite IH.
  destruct (mapM f l1); cbn; [|done]. by destruct (mapM f l2).
Qed.

Lemma mapM_fmap {A B C} (f : B → option C) (g : A → B) (l : list A) :
  mapM f (g <$> l) = mapM (fun x => f (g x)) l.
Proof. induction l as [|x l IH]; cbn; [done|]. by rewrite IH. Qed.

Section axis_values.
Context (axis_name : string) (config : AxisConfig)
        (responses : gmap string (gmap Z Z)).

Lemma collect_items_values bloc_name items values :
  match collect_items axis_name config responses bloc_name items values with
  | inr values' =>
      ∃ collected,
        mapM (fun i => effective_value config (bloc_name, i)
                         <$> answer responses (bloc_name, i)) items
        = Some collected ∧ values' = values ++ collected
  | inl _ =>
      mapM (fun i => effective_value config (bloc_name, i)
                       <$> answer responses (bloc_name, i)) items = None
  end.
Proof.
  revert values. induction items as [|i items IH]; intros values.
  { cbn. exists []. by rewrite app_nil_r. }
  cbn [collect_items mapM]. unfold getitem.
  destruct (responses !! bloc_name) as [bloc|] eqn:Hb; cbn.
  2: { assert (answer responses (bloc_name, i) = None) as ->
         by (unfold answer; cbn; by rewrite Hb). done. }
  destruct (bloc !! i) as [value|] eqn:Hi; cbn.
  2: { assert (answer responses (bloc_name, i) = None) as ->
         by (unfold answer; cbn; by rewrite Hb). done. }
  assert (answer responses (bloc_name, i) = Some value) as ->
    by (unfold answer; cbn; by rewrite Hb).
  specialize (IH (values ++
    [if bool_decide ((bloc_name, i) ∈ invert config)
     then invert_score value else value])).
  destruct (collect_items _ _ _ _ _ _) as [e|values'].
  - cbn. by rewrite IH.
  - destruct IH as (collected & -> & ->). cbn.
    eexists. split; [done|]. by rewrite <- app_assoc.
Qed.

Lemma collect_blocs_values names values :
  match collect_blocs axis_name config responses names values with
  | inr values' =>
      ∃ collected,
        mapM (fun p => effective_value config p <$> answer responses p)
             (bloc_name ← names;
              match blocs config !! bloc_name with
              | Some items => (fun item_num => (bloc_name, item_num)) <$> items
              | None => []
              end)
        = Some collected ∧ values' = values ++ collected
  | inl _ =>
      mapM (fun p => effective_value config p <$> answer responses p)
           (bloc_name ← names;
            match blocs config !! bloc_name with
            | Some items => (fun item_num => (bloc_name, item_num)) <$> items
            | None => []
            end)
      = None
  end.
Proof.
  revert values. induction names as [|bloc_name names IH]; intros values.
  { cbn. exists []. by rewrite app_nil_r. }
  cbn [collect_blocs]. rewrite bind_cons, mapM_app.
  destruct (blocs config !! bloc_name) as [items|] eqn:Hc.
  - rewrite mapM_fmap. cbv beta.
    pose proof (collect_items_values bloc_name items values) as Hitems.
    destruct (collect_items _ _ _ _ _ _) as [e|values1]; cbn.
    + by rewrite Hitems.
    + destruct Hitems as (collected1 & -> & ->). cbn.
      specialize (IH (values ++ collected1)).
      destruct (collect_blocs _ _ _ _ _) as [e|values2].
      * by rewrite IH.
      * destruct IH as (collected2 & -> & ->). cbn.
        eexists. split; [done|]. by rewrite <- app_assoc.
  - cbn. specialize (IH values).
    destruct (collect_blocs _ _ _ _ _) as [e|values2].
    + by rewrite IH.
    + destruct IH as (collected2 & -> & ->). cbn. by eexists.
Qed.

(** The values the two loops collect are those of [axis_values]. *)
Lemma collect_blocs_axis_values values :
  collect_blocs axis_name config responses bloc_names [] = inr values
  ↔ axis_values config responses = Some values.
Proof.
  pose proof (collect_blocs_values bloc_names []) as H.
  unfold axis_values, configured_items.
  destruct (collect_blocs _ _ _ _ _) as [e|values'].
  - rewrite H. split; done.
  - destruct H as (collected & -> & ->). cbn. split; congruence.
Qed.
End axis_values.

Lemma foldl_add (a : Z) (l : list Z) : foldl Z.add a l = a + py_sum l.
Proof.
  unfold py_sum. revert a.
  induction l as [|v l IH]; intros a; cbn [foldl]; [lia|].
  rewrite (IH (a + v)), (IH (0 + v)). lia.
Qed.

Lemma py_sum_cons (v : Z) (l : list Z) : py_sum (v :: l) = v + py_sum l.
Proof. unfold py_sum at 1. cbn [foldl]. apply foldl_add. Qed.

Lemma py_sum_bounds (lo hi : Z) (l : list Z) :
  Forall (fun v => lo ≤ v ≤ hi) l →
  lo * Z.of_nat (length l) ≤ py_sum l ≤ hi * Z.of_nat (length l).
Proof.
  induction 1 as [|v l Hv _ IH]; [cbn; lia|].
  rewrite py_sum_cons. cbn [length]. lia.
Qed.

Lemma py_sum_mono (l1 l2 : list Z) :
  Forall2 Z.le l1 l2 → py_sum l1 ≤ py_sum l2.
Proof.
  induction 1 as [|v1 v2 l1 l2 Hv _ IH]; [done|].
  rewrite !py_sum_cons. lia.
Qed.

(** What [compute_axis_score] does with the collected values. *)
Lemma compute_axis_score_values axis_name config responses values :
  axis_values config responses = Some values →
  compute_axis_score axis_name config responses
  = match values with
    | [] => inr (Finite 0)
    | _ => mean_score ← int_truediv (py_sum values)
                                    (Z.of_nat (length values));
           mret (normalize_to_100 mean_score)
    end.
Proof.
  intros Hv. apply (collect_blocs_axis_values axis_name) in Hv.
  unfold compute_axis_score. by rewrite Hv.
Qed.

(** The mean of ints between [lo] and [hi] is a float between them. *)
Lemma int_truediv_bounds (s n lo hi : Z) :
  0 ≤ lo → hi < 2 ^ 53 → 0 < n → lo * n ≤ s ≤ hi * n →
  ∃ q, int_truediv s n = inr (Finite q) ∧
       (inject_Z lo <= q)%Q ∧ (q <= inject_Z hi)%Q.
Proof.
  intros Hlo Hhi Hn Hs. unfold int_truediv.
  rewrite bool_decide_eq_false_2 by lia.
  assert (0 < inject_Z n)%Q as Hn' by (by rewrite <- (Zlt_Qlt 0)).
  assert (inject_Z lo <= inject_Z s / inject_Z n)%Q as H1.
  { apply Qle_shift_div_l; [done|].
    rewrite <- inject_Z_mult, <- Zle_Qle. lia. }
  assert (inject_Z s / inject_Z n <= inject_Z hi)%Q as H2.
  { apply Qle_shift_div_r; [done|].
    rewrite <- inject_Z_mult, <- Zle_Qle. lia. }
  assert (0 <= inject_Z lo)%Q as H0 by (by rewrite <- (Zle_Qle 0)).
  destruct (round_b64_range (inject_Z s / inject_Z n) hi)
    as (q & Hq & _ & Hqhi); [lra|done|done|].
  pose proof (round_b64_mono _ _ H1) as Hm.
  assert (lo ≤ hi) by nia.
  rewrite Hq, round_b64_Z in Hm by lia.
  cbn in Hm. apply Qle_bool_imp_le in Hm.
  rewrite Hq. by exists q.
Qed.

Lemma invert_score_range (v : Z) : 1 ≤ v ≤ 5 → 1 ≤ invert_score v ≤ 5.
Proof. unfold invert_score. lia. Qed.

Lemma effective_value_range config p (v : Z) :
  1 ≤ v ≤ 5 → 1 ≤ effective_value config p v ≤ 5.
Proof.
  intros Hv. unfold effective_value.
  case_bool_decide; [by apply invert_score_range|done].
Qed.

Lemma normalize_to_100_bounds (q : Q) :
  (1 <= q)%Q → (q <= 5)%Q →
  fle (Finite 0) (normalize_to_100 (Finite q)) = true ∧
  fle (normalize_to_100 (Finite q)) (Finite 100) = true.
Proof.
  intros H1 H5. split.
  - change (Finite 0) with (normalize_to_100 (Finite 1)).
    apply normalize_to_100_mono_aux. by apply Qle_bool_iff.
  - change (Finite 100) with (normalize_to_100 (Finite 5)).
    apply normalize_to_100_mono_aux. by apply Qle_bool_iff.
Qed.

(** An axis whose items are all answered with ratings 1..5 scores between
    0 and 100. *)
Lemma compute_axis_score_in_range axis_name config
    (responses : gmap string (gmap Z Z)) :
  (∀ p, p ∈ configured_items config →
        ∃ v, answer responses p = Some v ∧ 1 ≤ v ≤ 5) →
  ∃ score,
    compute_axis_score axis_name config responses = inr score ∧
    fle (Finite 0) score = true ∧ fle score (Finite 100) = true.
Proof.
  intros Hall.
  assert (∃ values, axis_values config responses = Some values ∧
                    Forall (fun v => 1 ≤ v ≤ 5) values)
    as (values & Hvalues & Hrange).
  { unfold axis_values.
    induction (configured_items config) as [|p l IH]; [by exists []|].
    destruct (Hall p) as (v & Hv & Hv15); [left|].
    destruct IH as (values & Hvalues & Hrange).
    { intros q Hq. apply Hall. by right. }
    exists (effective_value config p v :: values). cbn.
    rewrite Hv, Hvalues. split; [done|].
    constructor; [by apply effective_value_range|done]. }
  rewrite (compute_axis_score_values _ _ _ _ Hvalues).
  destruct values as [|v values]; [by exists (Finite 0)|].
  set (vs := v :: values) in *.
  pose proof (py_sum_bounds 1 5 vs Hrange) as Hsum.
  destruct (int_truediv_bounds (py_sum vs) (Z.of_nat (length vs)) 1 5)
    as (q & -> & Hq1 & Hq5); [lia|lia|cbn; lia|lia|].
  cbn. eexists. split; [done|]. by apply normalize_to_100_bounds.
Qed.

(** The three outcomes of [compute_axis_score], by [axis_values]. *)
Lemma compute_axis_score_cases axis_name config
    (responses : gmap string (gmap Z Z)) :
  match axis_values config responses with
  | Some [] => compute_axis_score axis_name config responses = inr (Finite 0)
  | Some values =>
      compute_axis_score axis_name config responses
      = (mean_score ← int_truediv (py_sum values) (Z.of_nat (length values));
         mret (normalize_to_100 mean_score))
  | None =>
      ∃ bloc_name item_num,
        (bloc_name, item_num) ∈ configured_items config ∧
        answer responses (bloc_name, item_num) = None ∧
        (compute_axis_score axis_name config responses
         = inl (ValueError_item axis_name bloc_name item_num) ∨
         compute_axis_score axis_name config responses
         = inl (KeyError bloc_name) ∧ responses !! bloc_name = None)
  end.
Proof.
  destruct (axis_values config responses) as [values|] eqn:Hv.
  { rewrite (compute_axis_score_values _ _ _ _ Hv). by destruct values. }
  destruct (collect_blocs axis_name config responses bloc_names [])
    as [e|values] eqn:Hcollect.
  2: { apply collect_blocs_axis_values in Hcollect. congruence. }
  rewrite (compute_axis_score_error _ _ _ _ Hcollect).
  pose proof (collect_blocs_spec axis_name config responses bloc_names [])
    as H.
  rewrite Hcollect in H.
  destruct H as (b & items & Hb & Hc & Hcase).
  assert (Hconf : ∀ i, i ∈ items → (b, i) ∈ configured_items config).
  { intros i Hi. unfold configured_items. apply list_elem_of_bind.
    exists b. split; [|done]. rewrite Hc. apply list_elem_of_fmap. eauto. }
  destruct Hcase as [(-> & Hne & Hnone)|(i & -> & Hi & _ & Hnone)].
  - destruct items as [|i items]; [done|].
    exists b, i. split; [apply Hconf; left|].
    split; [unfold answer; cbn; by rewrite Hnone|]. by right.
  - exists b, i. split; [by apply Hconf|]. split; [done|]. by left.
Qed.

Lemma collect_items_frame axis_name config
    (r1 r2 : gmap string (gmap Z Z)) bloc_name items values :
  (is_Some (r1 !! bloc_name) ↔ is_Some (r2 !! bloc_name)) →
  (∀ i, i ∈ items → answer r1 (bloc_name, i) = answer r2 (bloc_name, i)) →
  collect_items axis_name config r1 bloc_name items values
  = collect_items axis_name config r2 bloc_name items values.
Proof.
  intros Hblocs. revert values.
  induction items as [|i items IH]; intros values Hans; [done|].
  cbn [collect_items]. unfold getitem.
  pose proof (Hans i ltac:(left)) as Hi. unfold answer in Hi. cbn in Hi.
  destruct (r1 !! bloc_name) as [b1|] eqn:H1,
           (r2 !! bloc_name) as [b2|] eqn:H2; cbn in *.
  - rewrite Hi. destruct (b2 !! i); [|done].
    apply IH. intros j Hj. apply Hans. by right.
  - destruct Hblocs as [[? ?] _]; [eauto|done].
  - destruct Hblocs as [_ [? ?]]; [eauto|done].
  - done.
Qed.

(** X4. The result of [compute_axis_score] depends only on the answers to
    the items of the axis: two response maps with the same blocks present
    and the same answers to those items give the same result, error
    included. *)
Theorem compute_axis_score_frame axis_name config
    (r1 r2 : gmap string (gmap Z Z)) :
  (∀ bloc_name, bloc_name ∈ bloc_names →
     (is_Some (r1 !! bloc_name) ↔ is_Some (r2 !! bloc_name))) →
  (∀ p, p ∈ configured_items config → answer r1 p = answer r2 p) →
  compute_axis_score axis_name config r1
  = compute_axis_score axis_name config r2.
Proof.
  intros Hblocs Hans. unfold compute_axis_score. f_equal.
  unfold configured_items in Hans. revert Hblocs Hans.
  generalize (@nil Z) as values. 
  induction bloc_names as [|b names IH]; intros values Hblocs Hans; [done|].
  cbn [collect_blocs].
  assert (∀ p, p ∈ (bloc_name ← names;
                    match blocs config !! bloc_name with
                    | Some items => (fun i => (bloc_name, i)) <$> items
                    | None => []
                    end) → answer r1 p = answer r2 p) as Hrest.
  { intros p Hp. apply Hans. rewrite bind_cons. apply elem_of_app. by right. }
  assert (∀ bloc_name, bloc_name ∈ names →
            (is_Some (r1 !! bloc_name) ↔ is_Some (r2 !! bloc_name)))
    as Hblocs' by (intros ? ?; apply Hblocs; by right).
  destruct (blocs config !! b) as [items|] eqn:Hc; [|by apply IH].
  rewrite (collect_items_frame _ _ r1 r2).
  - destruct (collect_items _ _ r2 _ _ _); cbn; [done|]. by apply IH.
  - apply Hblocs. left.
  - intros i Hi. apply Hans. rewrite bind_cons, Hc. apply elem_of_app. left.
    apply list_elem_of_fmap. eauto.
Qed.

Lemma py_sum_uniform (v : Z) (l : list Z) :
  Forall (fun w => w = v) l → py_sum l = v * Z.of_nat (length l).
Proof.
  induction 1 as [|w l -> _ IH]; [cbn; lia|].
  rewrite py_sum_cons, IH. cbn [length]. lia.
Qed.

(** X6. When the axis reads at least one item and every value it collects
    (after inversion) is the same rating [v] in 1..5, its score is exactly
    [25 * (v - 1)]. *)
Theorem compute_axis_score_uniform axis_name config
    (responses : gmap string (gmap Z Z)) (v : Z) :
  1 ≤ v ≤ 5 →
  configured_items config ≠ [] →
  (∀ p, p ∈ configured_items config →
        ∃ a, answer responses p = Some a ∧ effective_value config p a = v) →
  compute_axis_score axis_name config responses
  = inr (Finite (inject_Z (25 * (v - 1)))).
Proof.
  intros Hv Hne Hall.
  assert (∃ values, axis_values config responses = Some values ∧
                    Forall (fun w => w = v) values ∧
                    length values = length (configured_items config))
    as (values & Hvalues & Hsame & Hlen).
  { unfold axis_values. clear Hne.
    induction (configured_items config) as [|p l IH]; [by exists []|].
    destruct (Hall p) as (a & Ha & Hav); [left|].
    destruct IH as (values & Hvalues & Hsame & Hlen).
    { intros q Hq. apply Hall. by right. }
    exists (v :: values). cbn. rewrite Ha, Hvalues. cbn. rewrite Hav.
    split; [done|]. split; [by constructor|by rewrite Hlen]. }
  rewrite (compute_axis_score_values _ _ _ _ Hvalues).
  destruct values as [|w values].
  { destruct (configured_items config); done. }
  set (vs := w :: values) in *.
  rewrite (py_sum_uniform v vs Hsame).
  unfold int_truediv. rewrite bool_decide_eq_false_2 by (cbn; lia).
  assert (inject_Z (v * Z.of_nat (length vs)) / inject_Z (Z.of_nat (length vs))
          == inject_Z v)%Q as Hq.
  { rewrite inject_Z_mult. field.
    change 0%Q with (inject_Z 0). rewrite inject_Z_injective. cbn. lia. }
  rewrite (round_b64_proper _ _ Hq).
  assert (v = 1 ∨ v = 2 ∨ v = 3 ∨ v = 4 ∨ v = 5) as Hcases by lia.
  destruct Hcases as [->|[->|[->|[->| ->]]]]; by vm_compute.
Qed.

(** X7. Raising answers never lowers a score: when every item of the axis
    is answered in both response maps and each collected value (after
    inversion) is at least as large in the second, the second score is at
    least the first. *)
Theorem compute_axis_score_mono axis_name config
    (r1 r2 : gmap string (gmap Z Z)) (score1 score2 : float) :
  (∀ p, p ∈ configured_items config →
        ∃ a1 a2, answer r1 p = Some a1 ∧ answer r2 p = Some a2 ∧
                 effective_value config p a1 ≤ effective_value config p a2) →
  compute_axis_score axis_name config r1 = inr score1 →
  compute_axis_score axis_name config r2 = inr score2 →
  fle score1 score2 = true.
Proof.
  intros Hall.
  assert (∃ values1 values2,
             axis_values config r1 = Some values1 ∧
             axis_values config r2 = Some values2 ∧
             Forall2 Z.le values1 values2)
    as (values1 & values2 & Hv1 & Hv2 & Hle).
  { unfold axis_values.
    induction (configured_items config) as [|p l IH]; [by exists [], []|].
    destruct (Hall p) as (a1 & a2 & Ha1 & Ha2 & Ha); [left|].
    destruct IH as (values1 & values2 & Hv1 & Hv2 & Hle).
    { intros q Hq. apply Hall. by right. }
    eexists (_ :: values1), (_ :: values2). cbn.
    rewrite Ha1, Ha2, Hv1, Hv2. cbn. split; [done|]. split; [done|].
    by constructor. }
  rewrite (compute_axis_score_values _ _ _ _ Hv1).
  rewrite (compute_axis_score_values _ _ _ _ Hv2).
  pose proof (Forall2_length _ _ _ Hle) as Hlen.
  pose proof (py_sum_mono _ _ Hle) as Hsum.
  destruct values1 as [|v1 values1], values2 as [|v2 values2]; try done.
  { intros [= <-] [= <-]. done. }
  set (vs1 := v1 :: values1) in *. set (vs2 := v2 :: values2) in *.
  rewrite <- Hlen. unfold int_truediv.
  rewrite bool_decide_eq_false_2 by (cbn; lia).
  assert (inject_Z (py_sum vs1) / inject_Z (Z.of_nat (length vs1))
          <= inject_Z (py_sum vs2) / inject_Z (Z.of_nat (length vs1)))%Q
    as Hmean.
  { apply Qmult_le_compat_r; [by rewrite <- Zle_Qle|].
    apply Qlt_le_weak, Qinv_lt_0_compat.
    rewrite <- (Zlt_Qlt 0). cbn. lia. }
  apply round_b64_mono in Hmean.
  destruct (round_b64 _) as [q1| | |], (round_b64 _) as [q2| | |]; cbn;
    try done.
  intros [= <-] [= <-]. by apply normalize_to_100_mono_aux.
Qed.

(** ** The whole report *)

Lemma global_item_range bloc_name lo hi offset i :
  (bloc_name, lo, hi, offset) ∈ bloc_ranges →
  global_item (bloc_name, i)
  = if bool_decide (lo ≤ i + offset < hi) then Some (i + offset) else None.
Proof.
  unfold bloc_ranges. intros Hin.
  repeat (apply elem_of_cons in Hin as [[= -> -> -> ->]|Hin]);
    [ | | | | by apply elem_of_nil in Hin ]; reflexivity.
Qed.

Lemma global_item_None bloc_name i :
  bloc_name ∉ bloc_names → global_item (bloc_name, i) = None.
Proof.
  unfold bloc_names. rewrite !elem_of_cons, elem_of_nil. intros Hb.
  unfold global_item, bloc_ranges. cbn.
  repeat (case_decide; [exfalso; naive_solver|]). done.
Qed.

Lemma answer_parse_responses (json_data : gmap Z Z) (p : string * Z) :
  answer (parse_responses json_data) p
  = global_item p ≫= (json_data !!.).
Proof.
  destruct p as [b i]. unfold answer. cbn [fst snd].
  destruct (decide (b ∈ bloc_names)) as [Hb|Hb].
  - destruct (bloc_names_ranges _ Hb) as (lo & hi & offset & Hin).
    rewrite (parse_responses_lookup _ _ _ _ _ Hin).
    rewrite (global_item_range _ _ _ _ _ Hin).
    cbn. rewrite fill_lookup, lookup_empty. unfold range.
    rewrite (bool_decide_ext _ (lo ≤ i + offset < hi))
      by (rewrite elem_of_seqZ; lia).
    case_bool_decide; cbn; [|done]. by destruct (json_data !! _).
  - rewrite (global_item_None _ _ Hb).
    destruct (parse_responses json_data !! b) eqn:E; [|done].
    exfalso. apply Hb. eapply parse_responses_is_Some; eauto.
Qed.

Lemma global_item_bounds p g : global_item p = Some g → 1 ≤ g ≤ 72.
Proof.
  destruct p as [b i]. destruct (decide (b ∈ bloc_names)) as [Hb|Hb].
  - destruct (bloc_names_ranges _ Hb) as (lo & hi & offset & Hin).
    rewrite (global_item_range _ _ _ _ _ Hin).
    pose proof (bloc_ranges_bounds _ _ _ _ Hin) as (_ & ? & ?).
    case_bool_decide; [|done]. intros [= <-]. lia.
  - by rewrite (global_item_None _ _ Hb).
Qed.

Lemma global_item_surj g :
  1 ≤ g ≤ 72 → ∃ p, p.1 ∈ bloc_names ∧ global_item p = Some g.
Proof.
  intros Hg.
  assert (Hcase : 1 ≤ g < 31 ∨ 31 ≤ g < 47 ∨ 47 ≤ g < 59 ∨ 59 ≤ g < 73)
    by lia.
  destruct Hcase as [?|[?|[?|?]]].
  - exists ("bloc1", g - 0). split; [elem_of_literal|].
    rewrite (global_item_range _ 1 31 0) by elem_of_literal.
    rewrite bool_decide_eq_true_2 by lia. f_equal. lia.
  - exists ("bloc2", g - 30). split; [elem_of_literal|].
    rewrite (global_item_range _ 31 47 30) by elem_of_literal.
    rewrite bool_decide_eq_true_2 by lia. f_equal. lia.
  - exists ("bloc3", g - 46). split; [elem_of_literal|].
    rewrite (global_item_range _ 47 59 46) by elem_of_literal.
    rewrite bool_decide_eq_true_2 by lia. f_equal. lia.
  - exists ("bloc4", g - 58). split; [elem_of_literal|].
    rewrite (global_item_range _ 59 73 58) by elem_of_literal.
    rewrite bool_decide_eq_true_2 by lia. f_equal. lia.
Qed.

(** *** Facts about the table *)

Lemma AXES_CONFIG_NoDup : NoDup AXES_CONFIG.*1.
Proof. apply (bool_decide_unpack _). by vm_compute. Qed.

(** Every item an axis reads is a local number of its block's range. *)
Lemma AXES_CONFIG_in_range axis_name config p :
  (axis_name, config) ∈ AXES_CONFIG → p ∈ configured_items config →
  is_Some (global_item p).
Proof.
  assert (Forall (fun nc : string * AxisConfig =>
                    Forall (fun p => is_Some (global_item p))
                           (configured_items nc.2)) AXES_CONFIG) as H.
  { apply (bool_decide_unpack _). by vm_compute. }
  intros Hin Hp. rewrite Forall_forall in H.
  specialize (H _ Hin). rewrite Forall_forall in H. by apply H.
Qed.

(** Every item 1..72 is read by some axis. *)
Lemma AXES_CONFIG_covers g :
  1 ≤ g ≤ 72 →
  ∃ axis_name config p,
    (axis_name, config) ∈ AXES_CONFIG ∧ p ∈ configured_items config ∧
    global_item p = Some g.
Proof.
  assert (Forall (fun g =>
            Exists (fun nc : string * AxisConfig =>
                      Exists (fun p => global_item p = Some g)
                             (configured_items nc.2)) AXES_CONFIG)
            (range 1 73)) as H.
  { apply (bool_decide_unpack _). by vm_compute. }
  intros Hg. rewrite Forall_forall in H.
  specialize (H g). rewrite Exists_exists in H.
  destruct H as ([n c] & Hin & Hex).
  { unfold range. apply elem_of_seqZ. lia. }
  rewrite Exists_exists in Hex. destruct Hex as (p & Hp & Hg').
  by exists n, c, p.
Qed.

(** *** The loop over the axes *)

Lemma dict_set_fresh {V} (d : list (string * V)) (key : string) (v : V) :
  key ∉ d.*1 → dict_set d key v = d ++ [(key, v)].
Proof.
  induction d as [|[k w] d IH]; intros Hk; [done|].
  cbn in *. rewrite not_elem_of_cons in Hk. destruct Hk as [Hne Hk].
  rewrite bool_decide_eq_false_2 by done. by rewrite IH.
Qed.

Lemma score_axes_spec (axes : list (string * AxisConfig))
    (responses : gmap string (gmap Z Z)) (scores : list (string * float)) :
  NoDup (scores.*1 ++ axes.*1) →
  match score_axes axes responses scores with
  | inr scores' =>
      ∃ new,
        scores' = scores ++ new ∧
        Forall2 (fun nc ns =>
                   nc.1 = ns.1 ∧
                   compute_axis_score nc.1 nc.2 responses = inr ns.2)
                axes new
  | inl e =>
      ∃ before axis_name config after,
        axes = before ++ (axis_name, config) :: after ∧
        Forall (fun nc => ∃ score,
                  compute_axis_score nc.1 nc.2 responses = inr score) before ∧
        compute_axis_score axis_name config responses = inl e
  end.
Proof.
  revert scores. induction axes as [|[n c] axes IH]; intros scores Hnd.
  { cbn. exists []. by rewrite app_nil_r. }
  cbn [score_axes].
  destruct (compute_axis_score n c responses) as [e|s] eqn:Hs; cbn.
  { by exists [], n, c, axes. }
  cbn in Hnd. apply NoDup_app in Hnd as (Hnd1 & Hdisj & Hnd2).
  apply NoDup_cons in Hnd2 as [Hn Hnd2].
  rewrite dict_set_fresh by (intros Hin; apply (Hdisj _ Hin); left).
  assert (NoDup ((scores ++ [(n, s)]).*1 ++ axes.*1)) as Hnd'.
  { rewrite fmap_app. cbn. rewrite <- app_assoc. cbn.
    apply NoDup_app. split; [done|]. split; [|by apply NoDup_cons].
    intros x Hx. by apply Hdisj. }
  specialize (IH (scores ++ [(n, s)]) Hnd').
  destruct (score_axes axes responses _) as [e|scores'].
  - destruct IH as (before & n' & c' & after & -> & Hbefore & He).
    exists ((n, c) :: before), n', c', after. split; [done|].
    split; [|done]. constructor; [by exists s|done].
  - destruct IH as (new & -> & Hall).
    exists ((n, s) :: new). rewrite <- app_assoc. split; [done|].
    by constructor.
Qed.

(** [compute_all_scores] pairs every axis of the table with its score,
    or stops with the error of the first axis that fails. *)
Lemma compute_all_scores_spec (json_data : gmap Z Z) :
  match compute_all_scores json_data with
  | inr scores =>
      Forall2 (fun nc ns =>
                 nc.1 = ns.1 ∧
                 compute_axis_score nc.1 nc.2 (parse_responses json_data)
                 = inr ns.2)
              AXES_CONFIG scores
  | inl e =>
      ∃ before axis_name config after,
        AXES_CONFIG = before ++ (axis_name, config) :: after ∧
        Forall (fun nc => ∃ score,
                  compute_axis_score nc.1 nc.2 (parse_responses json_data)
                  = inr score) before ∧
        compute_axis_score axis_name config (parse_responses json_data)
        = inl e
  end.
Proof.
  unfold compute_all_scores.
  pose proof (score_axes_spec AXES_CONFIG (parse_responses json_data) [])
    as H.
  destruct (score_axes _ _ _) as [e|scores]; [apply H, AXES_CONFIG_NoDup|].
  destruct H as (new & -> & Hall); [apply AXES_CONFIG_NoDup|done].
Qed.

(** X9. An answer map with a rating 1..5 for every item 1..72 always gets a
    report: the eight axis names in table order, each with a score between
    0 and 100. *)
Theorem compute_all_scores_valid (json_data : gmap Z Z) :
  (∀ g, 1 ≤ g ≤ 72 → ∃ v, json_data !! g = Some v ∧ 1 ≤ v ≤ 5) →
  ∃ scores,
    compute_all_scores json_data = inr scores ∧
    scores.*1 = AXES_CONFIG.*1 ∧
    Forall (fun ns => fle (Finite 0) ns.2 = true ∧
                      fle ns.2 (Finite 100) = true) scores.
Proof.
  intros Hvalid.
  assert (Haxis : ∀ axis_name config,
             (axis_name, config) ∈ AXES_CONFIG →
             ∃ score,
               compute_axis_score axis_name config
                                  (parse_responses json_data) = inr score ∧
               fle (Finite 0) score = true ∧ fle score (Finite 100) = true).
  { intros n c Hin. apply compute_axis_score_in_range. intros p Hp.
    destruct (AXES_CONFIG_in_range n c p Hin Hp) as [g Hg].
    rewrite answer_parse_responses, Hg. cbn.
    apply Hvalid. by eapply global_item_bounds. }
  pose proof (compute_all_scores_spec json_data) as H.
  destruct (compute_all_scores json_data) as [e|scores].
  { destruct H as (before & n & c & after & Heq & _ & He).
    destruct (Haxis n c) as (s & Hs & _); [|by rewrite Hs in He].
    rewrite Heq. apply elem_of_app. right. left. }
  exists scores. split; [done|].
  revert H Haxis. generalize AXES_CONFIG as axes. intros axes H.
  induction H as [|[n c] [n' s] axes scores [Hn Hs] _ IH]; intros Haxis;
    [done|].
  cbn [fst snd] in Hn, Hs. subst n'.
  destruct IH as [IH1 IH2].
  { intros ? ? ?. apply Haxis. by right. }
  split; [cbn; by rewrite IH1|].
  constructor; [|done]. cbn [snd].
  destruct (Haxis n c) as (s' & Hs' & H0 & H100); [left|].
  rewrite Hs in Hs'. injection Hs' as <-. done.
Qed.

(** X10. [compute_all_scores] succeeds only when every item 1..72 is
    answered, and its only errors are [OverflowError] and the missing-item
    [ValueError], which names an item of the axis whose global number has
    no answer in the input. *)
Theorem compute_all_scores_errors (json_data : gmap Z Z) :
  match compute_all_scores json_data with
  | inr scores => ∀ g, 1 ≤ g ≤ 72 → is_Some (json_data !! g)
  | inl e =>
      e = OverflowError ∨
      ∃ axis_name config bloc_name item_num g,
        e = ValueError_item axis_name bloc_name item_num ∧
        (axis_name, config) ∈ AXES_CONFIG ∧
        (bloc_name, item_num) ∈ configured_items config ∧
        global_item (bloc_name, item_num) = Some g ∧
        json_data !! g = None
  end.
Proof.
  pose proof (compute_all_scores_spec json_data) as H.
  destruct (compute_all_scores json_data) as [e|scores].
  - destruct H as (before & n & c & after & Heq & _ & He).
    assert ((n, c) ∈ AXES_CONFIG) as Hin
      by (rewrite Heq; apply elem_of_app; right; left).
    pose proof (compute_axis_score_cases n c (parse_responses json_data))
      as Hmean.
    destruct (axis_values c (parse_responses json_data))
      as [values|] eqn:Hv.
    + left. destruct values as [|v values]; cbv beta iota in Hmean;
        [by rewrite He in Hmean|].
      rewrite He in Hmean. unfold int_truediv in Hmean.
      rewrite bool_decide_eq_false_2 in Hmean by (cbn; lia).
      destruct (round_b64 _); cbn in Hmean; by simplify_eq.
    + right. destruct Hmean as (b & i & Hp & Hnone & [Hval|[Hkey Hb]]).
      * destruct (AXES_CONFIG_in_range n c _ Hin Hp) as [g Hg].
        exists n, c, b, i, g. rewrite He in Hval.
        split; [by injection Hval|]. repeat split; try done.
        by rewrite answer_parse_responses, Hg in Hnone.
      * exfalso.
        assert (b ∈ bloc_names) as Hbn.
        { unfold configured_items in Hp.
          apply list_elem_of_bind in Hp as (b' & Hp & Hb').
          destruct (blocs c !! b'); [|by apply elem_of_nil in Hp].
          by apply list_elem_of_fmap in Hp as (? & [= -> ->] & _). }
        apply (parse_responses_is_Some json_data) in Hbn as [? ?].
        by simplify_eq.
  - intros g Hg.
    destruct (AXES_CONFIG_covers g Hg) as (n & c & p & Hin & Hp & Hgp).
    assert (∃ s, compute_axis_score n c (parse_responses json_data) = inr s)
      as [s Hs].
    { clear -H Hin. induction H as [|[n1 c1] [n2 s2] ? ? [? ?] _ IH].
      - by apply elem_of_nil in Hin.
      - apply elem_of_cons in Hin as [[= -> ->]|Hin]; [eauto|by apply IH]. }
    pose proof (compute_axis_score_cases n c (parse_responses json_data))
      as Hmean.
    destruct (axis_values c (parse_responses json_data))
      as [values|] eqn:Hv.
    + apply mk_is_Some, mapM_is_Some_1 in Hv.
      rewrite Forall_forall in Hv. specialize (Hv p Hp). cbn in Hv.
      rewrite answer_parse_responses, Hgp in Hv. cbn in Hv.
      by apply fmap_is_Some in Hv.
    + destruct Hmean as (? & ? & _ & _ & [H1|[H1 _]]); by rewrite Hs in H1.
Qed.


(** X1. Two answer maps are parsed to the same blocks exactly when they
    agree on the items 1..72, and then [compute_all_scores] gives the same
    result for both. *)
Theorem parse_responses_agree (raw1 raw2 : gmap Z Z) :
  (parse_responses raw1 = parse_responses raw2
   ↔ ∀ g, 1 ≤ g ≤ 72 → raw1 !! g = raw2 !! g) ∧
  ((∀ g, 1 ≤ g ≤ 72 → raw1 !! g = raw2 !! g) →
   compute_all_scores raw1 = compute_all_scores raw2).
Proof.
  assert (Hparse : (∀ g, 1 ≤ g ≤ 72 → raw1 !! g = raw2 !! g) →
                   parse_responses raw1 = parse_responses raw2).
  { intros Hagree. apply map_eq. intros b.
    destruct (decide (b ∈ bloc_names)) as [Hb|Hb].
    - destruct (bloc_names_ranges _ Hb) as (lo & hi & offset & Hin).
      rewrite !(parse_responses_lookup _ _ _ _ _ Hin). f_equal.
      apply map_eq. intros k. rewrite !fill_lookup, !lookup_empty.
      case_bool_decide as Hk; [|done].
      unfold range in Hk. apply elem_of_seqZ in Hk.
      pose proof (bloc_ranges_bounds _ _ _ _ Hin) as (_ & ? & ?).
      rewrite Hagree by lia. done.
    - destruct (parse_responses raw1 !! b) eqn:E1.
      { exfalso. apply Hb. eapply parse_responses_is_Some; eauto. }
      destruct (parse_responses raw2 !! b) eqn:E2; [|done].
      exfalso. apply Hb. eapply parse_responses_is_Some; eauto. }
  split; [split; [|exact Hparse]|].
  - intros Heq g Hg. destruct (global_item_surj g Hg) as (p & _ & Hp).
    pose proof (answer_parse_responses raw1 p) as H1.
    pose proof (answer_parse_responses raw2 p) as H2.
    rewrite Heq, H2, Hp in H1. cbn in H1. done.
  - intros Hagree. unfold compute_all_scores. by rewrite (Hparse Hagree).
Qed.


(** ** Normalisation, axes and report: statements and instances *)

(** Case analysis on the items of a configuration given in full. *)
Ltac each_configured Hp tac :=
  vm_compute in Hp;
  repeat (apply elem_of_cons in Hp as [->|Hp]; [tac|]);
  by apply elem_of_nil in Hp.

(** X2. [normalize_to_100] is monotone on floats, infinities included: a
    larger mean never gives a smaller score. *)
Theorem normalize_to_100_mono (x y : float) :
  fle x y = true → fle (normalize_to_100 x) (normalize_to_100 y) = true.
Proof.
  intros Hxy. unfold normalize_to_100.
  replace (of_Z 1) with (Finite 1) by (by vm_compute).
  replace (of_Z 4) with (Finite 4) by (by vm_compute).
  replace (of_Z 100) with (Finite 100) by (by vm_compute).
  apply round2_mono.
  apply fmul_mono; [reflexivity|].
  apply fdiv_mono; [reflexivity|].
  by apply fsub_mono.
Qed.

Lemma normalize_to_100_mono_witness :
  fle (normalize_to_100 (Finite 2)) (normalize_to_100 (Finite 3)) = true.
Proof. apply (normalize_to_100_mono (Finite 2) (Finite 3)). by vm_compute. Defined.

(** X3. [compute_axis_score] returns 0.0 when the axis reads no item; the
    normalised mean of the answers to its items, inverted where listed,
    when all are answered; and otherwise raises for an item of the axis
    without answer, the missing-item [ValueError] or, when the block
    itself is absent, [KeyError]. *)
Theorem compute_axis_score_mean axis_name config
    (responses : gmap string (gmap Z Z)) :
  (∀ values,
      axis_values config responses = Some values →
      compute_axis_score axis_name config responses
      = match values with
        | [] => inr (Finite 0)
        | _ => mean_score ← int_truediv (py_sum values)
                                        (Z.of_nat (length values));
               mret (normalize_to_100 mean_score)
        end) ∧
  (axis_values config responses = None →
   ∃ bloc_name item_num,
     (bloc_name, item_num) ∈ configured_items config ∧
     answer responses (bloc_name, item_num) = None ∧
     (compute_axis_score axis_name config responses
      = inl (ValueError_item axis_name bloc_name item_num) ∨
      compute_axis_score axis_name config responses
      = inl (KeyError bloc_name) ∧ responses !! bloc_name = None)).
Proof.
  pose proof (compute_axis_score_cases axis_name config responses) as H.
  split.
  - intros values Hv. rewrite Hv in H. by destruct values.
  - intros Hv. by rewrite Hv in H.
Qed.

(** X5. When every item of an axis is answered with a rating 1..5,
    [compute_axis_score] returns a score between 0 and 100. *)
Theorem compute_axis_score_range axis_name config
    (responses : gmap string (gmap Z Z)) :
  (∀ bloc_name items item_num,
      bloc_name ∈ bloc_names → blocs config !! bloc_name = Some items →
      item_num ∈ items →
      ∃ bloc v, responses !! bloc_name = Some bloc ∧
                bloc !! item_num = Some v ∧ 1 ≤ v ≤ 5) →
  ∃ score,
    compute_axis_score axis_name config responses = inr score ∧
    fle (Finite 0) score = true ∧ fle score (Finite 100) = true.
Proof.
  intros Hall. apply compute_axis_score_in_range. intros [b i] Hp.
  unfold configured_items in Hp.
  apply list_elem_of_bind in Hp as (b' & Hp & Hb).
  destruct (blocs config !! b') as [items|] eqn:Hc;
    [|by apply elem_of_nil in Hp].
  apply list_elem_of_fmap in Hp as (i' & [= -> ->] & Hi).
  destruct (Hall b' items i' Hb Hc Hi) as (bloc & v & Hbloc & Hv & Hrange).
  exists v. split; [|done]. unfold answer. cbn. by rewrite Hbloc.
Qed.

Lemma compute_axis_score_range_witness :
  ∃ score,
    compute_axis_score "Drive & Motivation"
      {| blocs := {[ "bloc2" := [9; 10; 11; 12; 13; 15; 16] ]};
         invert := [] |}
      (parse_responses (all_items 4)) = inr score ∧
    fle (Finite 0) score = true ∧ fle score (Finite 100) = true.
Proof.
  apply (compute_axis_score_range "Drive & Motivation"
           {| blocs := {[ "bloc2" := [9; 10; 11; 12; 13; 15; 16] ]};
              invert := [] |}
           (parse_responses (all_items 4))).
  intros bloc_name items item_num Hb Hc Hi. unfold bloc_names in Hb.
  repeat (apply elem_of_cons in Hb as [->|Hb]; [vm_compute in Hc|]);
    [ | | | | by apply elem_of_nil in Hb ]; try discriminate.
  injection Hc as <-.
  assert (9 ≤ item_num ≤ 16) as Hrange.
  { repeat (apply elem_of_cons in Hi as [->|Hi]; [lia|]).
    by apply elem_of_nil in Hi. }
  eexists _, 4. split; [apply parse_responses_lookup; elem_of_literal|].
  split; [|lia]. rewrite fill_lookup, lookup_empty, all_items_lookup.
  rewrite !bool_decide_eq_true_2; [done|lia|].
  unfold range. apply elem_of_seqZ. lia.
Defined.

Lemma compute_axis_score_frame_witness :
  compute_axis_score "Drive & Motivation"
    {| blocs := {[ "bloc2" := [9; 10; 11; 12; 13; 15; 16] ]};
       invert := [] |}
    (parse_responses (all_items 3))
  = compute_axis_score "Drive & Motivation"
      {| blocs := {[ "bloc2" := [9; 10; 11; 12; 13; 15; 16] ]};
         invert := [] |}
      (parse_responses (<[1 := 5]> (all_items 3))).
Proof.
  apply (compute_axis_score_frame "Drive & Motivation"
           {| blocs := {[ "bloc2" := [9; 10; 11; 12; 13; 15; 16] ]};
              invert := [] |}
           (parse_responses (all_items 3))
           (parse_responses (<[1 := 5]> (all_items 3)))).
  - intros bloc_name Hb. by rewrite !parse_responses_is_Some.
  - intros p Hp. each_configured Hp ltac:(by vm_compute).
Defined.

Lemma compute_axis_score_uniform_witness :
  compute_axis_score "Style d'action"
    {| blocs := {[ "bloc3" := range 1 13 ]}; invert := [] |}
    (parse_responses (all_items 4))
  = inr (Finite (inject_Z (25 * (4 - 1)))).
Proof.
  apply (compute_axis_score_uniform "Style d'action"
           {| blocs := {[ "bloc3" := range 1 13 ]}; invert := [] |}
           (parse_responses (all_items 4)) 4).
  - lia.
  - by vm_compute.
  - intros p Hp.
    each_configured Hp ltac:(exists 4; split; by vm_compute).
Defined.

Lemma compute_axis_score_mono_witness : fle (Finite 25) (Finite 75) = true.
Proof.
  apply (compute_axis_score_mono "Drive & Motivation"
           {| blocs := {[ "bloc2" := [9; 10; 11; 12; 13; 15; 16] ]};
              invert := [] |}
           (parse_responses (all_items 2)) (parse_responses (all_items 4))
           (Finite 25) (Finite 75)).
  - intros p Hp.
    each_configured Hp
      ltac:(exists 2, 4; split; [by vm_compute|]; split; by vm_compute).
  - by vm_compute.
  - by vm_compute.
Defined.

Lemma compute_all_scores_valid_witness :
  ∃ scores,
    compute_all_scores (all_items 4) = inr scores ∧
    scores.*1 = AXES_CONFIG.*1 ∧
    Forall (fun ns => fle (Finite 0) ns.2 = true ∧
                      fle ns.2 (Finite 100) = true) scores.
Proof.
  apply (compute_all_scores_valid (all_items 4)).
  intros g Hg. exists 4. rewrite all_items_lookup.
  rewrite bool_decide_eq_true_2 by done. split; [done|lia].
Defined.

(** X8. [compute_all_scores] pairs every axis of the table, in order, with
    the result of [compute_axis_score] on the parsed answers; when an axis
    fails, the error raised is that of the first failing axis. *)
Theorem compute_all_scores_fail_fast (json_data : gmap Z Z) :
  match compute_all_scores json_data with
  | inr scores =>
      scores.*1 = AXES_CONFIG.*1 ∧
      ∀ k axis_name config,
        AXES_CONFIG !! k = Some (axis_name, config) →
        ∃ score,
          scores !! k = Some (axis_name, score) ∧
          compute_axis_score axis_name config (parse_responses json_data)
          = inr score
  | inl e =>
      ∃ before axis_name config after,
        AXES_CONFIG = before ++ (axis_name, config) :: after ∧
        Forall (fun nc => ∃ score,
                  compute_axis_score nc.1 nc.2 (parse_responses json_data)
                  = inr score) before ∧
        compute_axis_score axis_name config (parse_responses json_data)
        = inl e
  end.
Proof.
  pose proof (compute_all_scores_spec json_data) as H.
  destruct (compute_all_scores json_data) as [e|scores]; [done|].
  split.
  - induction H as [|[? ?] [? ?] ? ? [? _] _ IH]; [done|].
    cbn in *. by f_equal.
  - intros k n c Hk.
    destruct (Forall2_lookup_l _ _ _ _ _ H Hk) as ([n' s] & Hs & Hn & Hc).
    cbn [fst snd] in Hn, Hc. subst n'. by exists s.
Qed.


